(** * RAFOO: a class-based toy language with runtime and view types

    Shallow embedding of [lang_types.py], [interpreter.py] and
    [parser.py].

    Modelling conventions.
    - A Python [str] is a Rocq [string]; characters are the code points
      below 256, so the development describes the program on such text.
    - A Python [int] is a [Z].  CPython converts between [str] and [int]
      up to 4300 digits only; [int] and [PyStr.str] are the conversions
      without this limit, [int_limited] and [str_limited] the conversions
      with it.  The methods of the interpreter are embedded with the
      former, [Limited] gives them with the latter, and the two agree
      except where a conversion raises.
    - A Python [dict] keyed by strings is a [gmap string _]; none of the
      properties below depends on insertion order.
    - A [ClassDef] object is immutable once the program is loaded.  Its
      [base] reference is embedded as the referenced object itself, and the
      object's identity (what Python's [is] compares) is the field [oid].
      Base chains are finite: the loader calls [all_fields] on the base
      of every class, which does not return on a cyclic chain.
    - The parser keeps its dictionary of classes as an association list in
      insertion order.  Its assignments [cls.base = ...] are modelled by
      [Parser.linked], which builds the class object with the [base]
      references followed; the recursion of [all_fields] is taken to fail
      on cyclic chains only (no bound on the depth of a finite chain).
    - An [Instance] is a mutable object shared between bindings: instances
      live in a store (a list indexed by allocation order) and bindings
      hold indices into it.
    - Every exception of the interpreter is a [ValueError]; the model tells
      them apart by the message they carry.  The interpreter state survives
      an exception, as the Python object does. *)

From Stdlib Require Import ZArith Ascii String DecimalString DecimalPos DecimalZ.
From stdpp Require Import base option list gmap strings.

Local Open Scope string_scope.
Local Open Scope Z_scope.
Local Open Scope list_scope.

(** ** Python string primitives used by the interpreter *)

Module PyStr.

(** [str.isspace] on the code points below 256. *)
Definition isspace (c : ascii) : bool :=
  let n := nat_of_ascii c in
  ((9 <=? n)%nat && (n <=? 13)%nat) || ((28 <=? n)%nat && (n <=? 32)%nat)
  || (n =? 133)%nat || (n =? 160)%nat.

(** [\d] of the [re] module on the code points below 256. *)
Definition isdigit (c : ascii) : bool :=
  let n := nat_of_ascii c in (48 <=? n)%nat && (n <=? 57)%nat.

Definition digit_val (c : ascii) : Z := Z.of_nat (nat_of_ascii c) - 48.

Definition is_empty (s : string) : bool :=
  match s with EmptyString => true | String _ _ => false end.

(** [s.startswith(p)] *)
Fixpoint startswith (p s : string) : bool :=
  match p, s with
  | EmptyString, _ => true
  | String a p', String b s' => if Ascii.eqb a b then startswith p' s' else false
  | String _ _, EmptyString => false
  end.

(** [s[n:]] *)
Fixpoint slice_from (n : nat) (s : string) : string :=
  match n, s with
  | O, _ => s
  | S n', String _ s' => slice_from n' s'
  | S _, EmptyString => EmptyString
  end.

(** [s.split(sep, 1)] for a non-empty [sep]: [Some (before, after)] around
    the first occurrence of [sep], [None] when [sep] does not occur (Python
    then returns the one-element list [[s]]). *)
Fixpoint split1 (sep s : string) : option (string * string) :=
  if startswith sep s then Some (EmptyString, slice_from (String.length sep) s)
  else match s with
       | EmptyString => None
       | String c s' =>
           match split1 sep s' with
           | Some (a, b) => Some (String c a, b)
           | None => None
           end
       end.

(** [sub in s] *)
Definition contains (sub s : string) : bool :=
  match split1 sub s with Some _ => true | None => false end.

(** [s.rsplit(sep, 1)] for a non-empty [sep]: the split around the last
    occurrence. *)
Fixpoint rsplit1 (sep s : string) : option (string * string) :=
  match s with
  | EmptyString => None
  | String c s' =>
      match rsplit1 sep s' with
      | Some (a, b) => Some (String c a, b)
      | None =>
          if startswith sep s
          then Some (EmptyString, slice_from (String.length sep) s)
          else None
      end
  end.

(** [s.split(c)] for a one-character separator: all the pieces. *)
Fixpoint split_all (c : ascii) (s : string) : list string :=
  match s with
  | EmptyString => [EmptyString]
  | String a s' =>
      if Ascii.eqb a c then EmptyString :: split_all c s'
      else match split_all c s' with
           | h :: t => String a h :: t
           | [] => [String a EmptyString]
           end
  end.

Fixpoint lstrip (s : string) : string :=
  match s with
  | EmptyString => EmptyString
  | String c s' => if isspace c then lstrip s' else s
  end.

Fixpoint rstrip (s : string) : string :=
  match s with
  | EmptyString => EmptyString
  | String c s' =>
      let r := rstrip s' in
      if isspace c && is_empty r then EmptyString else String c r
  end.

(** [s.strip()] *)
Definition strip (s : string) : string := rstrip (lstrip s).

(** [sep.join(l)] *)
Fixpoint join (sep : string) (l : list string) : string :=
  match l with
  | [] => EmptyString
  | [x] => x
  | x :: l' => x +:+ sep +:+ join sep l'
  end.

(** [str(z)] for an [int]. *)
Definition str (z : Z) : string := NilZero.string_of_int (Z.to_int z).

End PyStr.

(* The string primitives are applied to literals in the methods below;
   they are kept folded during simplification. *)
Arguments PyStr.startswith : simpl never.
Arguments PyStr.slice_from : simpl never.
Arguments PyStr.split1 : simpl never.
Arguments PyStr.rsplit1 : simpl never.
Arguments PyStr.split_all : simpl never.
Arguments PyStr.contains : simpl never.
Arguments PyStr.strip : simpl never.
Arguments PyStr.join : simpl never.
Arguments PyStr.str : simpl never.

(** ** lang_types.py *)

(** The string after an optional minus sign matches [\d+$]: one or more
    digits up to the end of the string, or up to a final newline ([$]
    also matches just before a newline that ends the string). *)
Fixpoint digits_to_end (seen : bool) (s : string) : bool :=
  match s with
  | EmptyString => seen
  | String c s' =>
      if PyStr.isdigit c then digits_to_end true s'
      else seen && Ascii.eqb c "010"%char && PyStr.is_empty s'
  end.

(** [is_int(tok)]: [bool(re.compile(r"-?\d+$").match(tok))]. *)
Definition is_int (tok : string) : bool :=
  match tok with
  | String "-"%char s' => digits_to_end false s'
  | _ => digits_to_end false tok
  end.

(** Value of the decimal digits at the head of [s], continuing [acc]. *)
Fixpoint digits_value (acc : Z) (s : string) : Z :=
  match s with
  | String c s' =>
      if PyStr.isdigit c then digits_value (10 * acc + PyStr.digit_val c) s' else acc
  | EmptyString => acc
  end.

(** The integer that [int(tok)] returns on a token accepted by [is_int]
    (the interpreter converts no other string): sign, decimal digits, and
    the final newline that [int] ignores as white space.  Whether
    [int(tok)] returns at all is told by [int_limited] below. *)
Definition int (tok : string) : Z :=
  match tok with
  | String "-"%char s' => - digits_value 0 s'
  | _ => digits_value 0 tok
  end.

(** CPython (3.11 and later, as it is set by default) converts between
    [str] and [int] up to 4300 digits only ([sys.int_max_str_digits]):
    beyond that [int(tok)] and [str(n)] raise [ValueError]. *)
Definition int_max_str_digits : nat := 4300.

(** The number of digits of a text; the sign, and the final newline of a
    token accepted by [is_int], do not count. *)
Fixpoint count_digits (s : string) : nat :=
  match s with
  | EmptyString => O
  | String c s' =>
      if PyStr.isdigit c then S (count_digits s') else count_digits s'
  end.

(** [int(tok)] on a token accepted by [is_int]; [None] is the
    [ValueError] of a token with too many digits. *)
Definition int_limited (tok : string) : option Z :=
  if (count_digits tok <=? int_max_str_digits)%nat then Some (int tok)
  else None.

(** [str(n)] for an [int]; [None] is the [ValueError] of an integer with
    too many digits. *)
Definition str_limited (n : Z) : option string :=
  if (count_digits (PyStr.str n) <=? int_max_str_digits)%nat
  then Some (PyStr.str n)
  else None.

Arguments int_limited : simpl never.
Arguments str_limited : simpl never.


(** [ClassDef]: the description of one class.  [oid] is the identity of
    the Python object; [base] is the reference filled in after parsing. *)
Module ClassDef.

#[local] Unset Elimination Schemes.
Inductive t : Type := mk {
  oid : nat;
  name : string;
  base_name : option string;
  fields : list string;
  methods : gmap string (list string);
  base : option t
}.
#[local] Set Elimination Schemes.

(** Induction along the [base] chain, from the root class down. *)
Fixpoint chain_ind (P : t → Prop)
    (Hroot : ∀ o n bn fs ms, P (mk o n bn fs ms None))
    (Hderived : ∀ o n bn fs ms b, P b → P (mk o n bn fs ms (Some b)))
    (c : t) : P c :=
  match c with
  | mk o n bn fs ms None => Hroot o n bn fs ms
  | mk o n bn fs ms (Some b) =>
      Hderived o n bn fs ms b (chain_ind P Hroot Hderived b)
  end.

(** [all_fields]: every field of the class, inherited ones first. *)
Fixpoint all_fields (self : t) : list string :=
  match base self with
  | None => fields self
  | Some b => (all_fields b ++ fields self)%list
  end.

(** [is_subclass_of]: [self] is [other] or one of its subclasses. *)
Fixpoint is_subclass_of (self other : t) : bool :=
  if (oid self =? oid other)%nat then true
  else match base self with
       | Some b => is_subclass_of b other
       | None => false
       end.

(** [lookup_method]: the tokens of the method in this class or its bases. *)
Fixpoint lookup_method (self : t) (name : string) : option (list string) :=
  match methods self !! name with
  | Some tokens => Some tokens
  | None =>
      match base self with
      | Some b => lookup_method b name
      | None => None
      end
  end.

End ClassDef.

(** [Instance]: a concrete object, with its runtime class and field values. *)
Module Instance.

Record t : Type := mk {
  cls : ClassDef.t;
  fields : gmap string Z
}.

End Instance.

(** ** interpreter.py *)

(** Reference to an [Instance] object: its index in the object store. *)
Definition ref := nat.

(** [VarBinding]: the object a variable denotes and the class it is viewed
    through. *)
Record VarBinding : Type := mkVarBinding {
  inst : ref;
  view_cls : ClassDef.t
}.

(** The [ValueError]s of the interpreter, by message. *)
Inductive exn : Type :=
| UnknownStatement (stmt : string)
| InvalidConstructorArg
| InvalidAssignedValue
| UnknownField (field_name cls_name : string)
| MethodNotFound (method_name view_name : string)
| UnknownFieldInMethod (tok method_name : string)
| UnknownVariable (name : string)
| UnknownClass (class_name : string)
| ArityMismatch (class_name : string) (expected got : nat)
| InvalidCast (from_name to_name : string)
| UnpackError
    (* "not enough values to unpack": a split that found no separator *)
| ExceedsDigitLimit
    (* "Exceeds the limit (4300 digits) for integer string conversion":
       raised by [int] and [str] themselves *)
| DanglingReference
    (* model only: a binding whose index is outside the store; no state
       of the Python program corresponds to it *).

Inductive outcome (A : Type) : Type :=
| Returns (a : A)
| Raises (e : exn).
Arguments Returns {A} a.
Arguments Raises {A} e.

(** The [Interpreter] object, with the objects it has allocated ([store])
    and the lines it has printed ([stdout]). *)
Record Interpreter : Type := mkInterpreter {
  classes : gmap string ClassDef.t;
  statements : list string;
  env : gmap string VarBinding;
  store : list Instance.t;
  stdout : list string
}.

(** [Interpreter(classes, statements)] *)
Definition __init__ (classes : gmap string ClassDef.t) (statements : list string)
  : Interpreter :=
  {| classes := classes; statements := statements; env := ∅;
     store := []; stdout := [] |}.

(** The interpreter after it has printed one more line. *)
Definition printed (self : Interpreter) (line : string) : Interpreter :=
  {| classes := classes self; statements := statements self; env := env self;
     store := store self; stdout := (stdout self ++ [line])%list |}.

(** The interpreter after [self.env[x] = b]. *)
Definition bound (self : Interpreter) (x : string) (b : VarBinding) : Interpreter :=
  {| classes := classes self; statements := statements self;
     env := <[x := b]> (env self);
     store := store self; stdout := stdout self |}.

(** The interpreter after a new object has been allocated. *)
Definition allocated (self : Interpreter) (o : Instance.t) : Interpreter :=
  {| classes := classes self; statements := statements self; env := env self;
     store := (store self ++ [o])%list; stdout := stdout self |}.

(** The interpreter after the object behind [r] has been replaced by [o]. *)
Definition updated (self : Interpreter) (r : ref) (o : Instance.t) : Interpreter :=
  {| classes := classes self; statements := statements self; env := env self;
     store := <[r := o]> (store self); stdout := stdout self |}.

(** A method of the interpreter: it may update the object and either
    returns or raises. *)
Definition M (A : Type) : Type := Interpreter → Interpreter * outcome A.

Definition ret {A} (a : A) : M A := λ self, (self, Returns a).
Definition raise {A} (e : exn) : M A := λ self, (self, Raises e).
Definition bind {A B} (m : M A) (k : A → M B) : M B :=
  λ self, match m self with
          | (self', Returns a) => k a self'
          | (self', Raises e) => (self', Raises e)
          end.

#[global] Instance M_ret : MRet M := @ret.
#[global] Instance M_bind : MBind M := λ A B k m, bind m k.

Definition get_self : M Interpreter := λ self, (self, Returns self).

(** [self.env[var_name] = binding] *)
Definition set_var (var_name : string) (binding : VarBinding) : M unit :=
  λ self, (bound self var_name binding, Returns tt).

(** Allocation of a new [Instance] object; its reference is returned. *)
Definition new_instance (o : Instance.t) : M ref :=
  λ self, (allocated self o, Returns (length (store self))).

(** The object behind a reference. *)
Definition deref (r : ref) : M Instance.t :=
  λ self, match store self !! r with
          | Some o => (self, Returns o)
          | None => (self, Raises DanglingReference)
          end.

(** In-place update of the object behind a reference. *)
Definition update (r : ref) (o : Instance.t) : M unit :=
  λ self, (updated self r o, Returns tt).

(** [print(line)] *)
Definition print (line : string) : M unit :=
  λ self, (printed self line, Returns tt).

(** [a, b = parts]: unpacking the two pieces of a [split(sep, 1)]. *)
Definition unpack2 (parts : option (string * string)) : M (string * string) :=
  match parts with
  | Some p => ret p
  | None => raise UnpackError
  end.

(** [dict(items)]: a later item overrides an earlier one with the same key. *)
Definition dict {V} (items : list (string * V)) : gmap string V :=
  foldl (λ m kv, <[kv.1 := kv.2]> m) ∅ items.

Section Methods.

Import PyStr.

(** [_get_binding]: the binding of a variable in the environment. *)
Definition _get_binding (name : string) : M VarBinding :=
  self ← get_self;
  match env self !! name with
  | None => raise (UnknownVariable name)
  | Some binding => ret binding
  end.

(** [_instantiate]: a new instance of the class from the constructor
    arguments, which follow [all_fields] (base first, then derived). *)
Definition _instantiate (class_name : string) (args : list Z) : M ref :=
  self ← get_self;
  match classes self !! class_name with
  | None => raise (UnknownClass class_name)
  | Some cls =>
      let all_fields := ClassDef.all_fields cls in
      if decide (length all_fields ≠ length args)
      then raise (ArityMismatch class_name (length all_fields) (length args))
      else new_instance
             {| Instance.cls := cls;
                Instance.fields := dict (zip all_fields args) |}
  end.

(** [_clone]: a new instance of the same runtime class with the same
    field values. *)
Definition _clone (inst : ref) : M ref :=
  o ← deref inst;
  new_instance {| Instance.cls := Instance.cls o;
                  Instance.fields := Instance.fields o |}.

(** [_cast_binding]: upcast; the object stays the same, only the view
    class changes. *)
Definition _cast_binding (binding : VarBinding) (target_cls_name : string)
  : M VarBinding :=
  self ← get_self;
  match classes self !! target_cls_name with
  | None => raise (UnknownClass target_cls_name)
  | Some target_cls =>
      o ← deref (inst binding);
      if negb (ClassDef.is_subclass_of (Instance.cls o) target_cls)
      then raise (InvalidCast (ClassDef.name (Instance.cls o))
                              (ClassDef.name target_cls))
      else ret {| inst := inst binding; view_cls := target_cls |}
  end.

(** The loop of [_exec_let] over the constructor arguments. *)
Fixpoint ctor_args (toks : list string) : M (list Z) :=
  match toks with
  | [] => ret []
  | tok :: toks' =>
      let tok := strip tok in
      if negb (is_int tok) then raise InvalidConstructorArg
      else args ← ctor_args toks'; ret (int tok :: args)
  end.

(** [_exec_let]: ['let name = expr'] with [expr] one of [new A(...)],
    [clone a], [cast<B> a], or a plain variable. *)
Definition _exec_let (stmt : string) : M unit :=
  '(_, rest) ← unpack2 (split1 "let" stmt);
  '(name_part, expr_part) ← unpack2 (split1 "=" rest);
  let var_name := strip name_part in
  let expr := strip expr_part in
  if startswith "new " expr then
    let expr2 := strip (slice_from 4 expr) in
    '(cls_name, args_str) ← unpack2 (split1 "(" expr2);
    let cls_name := strip cls_name in
    let args_str :=
      match rsplit1 ")" args_str with Some (a, _) => a | None => args_str end in
    args ← (if is_empty (strip args_str) then ret []
            else ctor_args (split_all "," args_str));
    inst ← _instantiate cls_name args;
    o ← deref inst;
    set_var var_name {| inst := inst; view_cls := Instance.cls o |}
  else if startswith "clone " expr then
    let src_name := strip (slice_from 6 expr) in
    src_binding ← _get_binding src_name;
    new_inst ← _clone (inst src_binding);
    set_var var_name {| inst := new_inst; view_cls := view_cls src_binding |}
  else if startswith "cast<" expr then
    let after_cast := slice_from 5 expr in
    '(type_part, rest2) ← unpack2 (split1 ">" after_cast);
    let target_cls_name := strip type_part in
    let src_name := strip rest2 in
    src_binding ← _get_binding src_name;
    new_binding ← _cast_binding src_binding target_cls_name;
    set_var var_name new_binding
  else
    let src_name := expr in
    src_binding ← _get_binding src_name;
    set_var var_name {| inst := inst src_binding;
                        view_cls := view_cls src_binding |}.

(** [_exec_field_assign]: ['a.a = 5']. *)
Definition _exec_field_assign (stmt : string) : M unit :=
  '(lhs, rhs) ← unpack2 (split1 "=" stmt);
  let right := strip rhs in
  if negb (is_int right) then raise InvalidAssignedValue
  else
    let value := int right in
    let obj_part := strip lhs in
    '(var_name, field_name) ← unpack2 (split1 "." obj_part);
    let var_name := strip var_name in
    let field_name := strip field_name in
    binding ← _get_binding var_name;
    o ← deref (inst binding);
    match Instance.fields o !! field_name with
    | None => raise (UnknownField field_name (ClassDef.name (Instance.cls o)))
    | Some _ =>
        update (inst binding)
          {| Instance.cls := Instance.cls o;
             Instance.fields := <[field_name := value]> (Instance.fields o) |}
    end.

(** The loop of [_exec_call] over the tokens of the method: a literal
    is printed as it is, any other token is the name of a field. *)
Fixpoint token_values (o : Instance.t) (method_name : string)
    (tokens : list string) : M (list Z) :=
  match tokens with
  | [] => ret []
  | tok :: tokens' =>
      v ← (if is_int tok then ret (int tok)
           else match Instance.fields o !! tok with
                | None => raise (UnknownFieldInMethod tok method_name)
                | Some v => ret v
                end);
      values ← token_values o method_name tokens';
      ret (v :: values)
  end.

(** [_exec_call]: ['call a.showAll']; the method is looked up through
    the view class, the values are read from the instance. *)
Definition _exec_call (stmt : string) : M unit :=
  '(_, rest) ← unpack2 (split1 "call" stmt);
  let rest := strip rest in
  '(var_part, method_name) ← unpack2 (split1 "." rest);
  let var_part := strip var_part in
  let method_name := strip method_name in
  binding ← _get_binding var_part;
  o ← deref (inst binding);
  let view_cls := view_cls binding in
  match ClassDef.lookup_method view_cls method_name with
  | None => raise (MethodNotFound method_name (ClassDef.name view_cls))
  | Some tokens =>
      values ← token_values o method_name tokens;
      print (join " " (str <$> values))
  end.

(** [_exec_is]: ['a is A'], on the runtime class of the instance. *)
Definition _exec_is (stmt : string) : M unit :=
  '(var_name, cls_name) ← unpack2 (split1 " is " stmt);
  let var_name := strip var_name in
  let cls_name := strip cls_name in
  self ← get_self;
  match env self !! var_name, classes self !! cls_name with
  | Some binding, Some cls =>
      o ← deref (inst binding);
      print (if ClassDef.is_subclass_of (Instance.cls o) cls
             then "IS" else "ISN'T")
  | _, _ => print "ISN'T"
  end.

(** [_exec_statement]: strips the comment after [;], recognises the kind
    of statement and delegates. *)
Definition _exec_statement (stmt : string) : M unit :=
  let stmt :=
    strip (match split1 ";" stmt with Some (a, _) => a | None => stmt end) in
  if is_empty stmt then ret tt
  else if startswith "let " stmt then _exec_let stmt
  else if contains "." stmt && contains "=" stmt
          && negb (startswith "call " stmt)
  then _exec_field_assign stmt
  else if startswith "call " stmt then _exec_call stmt
  else if contains " is " stmt then _exec_is stmt
  else raise (UnknownStatement stmt).

(** The loop of [run]: the statements in order, up to the first
    exception. *)
Fixpoint exec_all (stmts : list string) : M unit :=
  match stmts with
  | [] => ret tt
  | stmt :: stmts' => _ ← _exec_statement stmt; exec_all stmts'
  end.

(** [run]: executes all the statements in order. *)
Definition run : M unit :=
  self ← get_self; exec_all (statements self).

End Methods.

(** ** The methods under the conversion limit

    The methods above take [int(tok)] and [str(v)] as the conversions
    they are on every text and every integer.  [Limited] gives the
    methods that convert as they run on CPython, where a conversion of
    more than 4300 digits raises: the same statements, with [int] and
    [str] replaced by [int_limited] and [str_limited]. *)

Module Limited.

Import PyStr.

(** [int(tok)] where the interpreter calls it. *)
Definition convert (tok : string) : M Z :=
  match int_limited tok with
  | Some v => ret v
  | None => raise ExceedsDigitLimit
  end.

(** [str(v) for v in values], in order. *)
Fixpoint texts (values : list Z) : M (list string) :=
  match values with
  | [] => ret []
  | v :: values' =>
      match str_limited v with
      | None => raise ExceedsDigitLimit
      | Some t => ts ← texts values'; ret (t :: ts)
      end
  end.

(** The loop of [_exec_let] over the constructor arguments. *)
Fixpoint ctor_args (toks : list string) : M (list Z) :=
  match toks with
  | [] => ret []
  | tok :: toks' =>
      let tok := strip tok in
      if negb (is_int tok) then raise InvalidConstructorArg
      else v ← convert tok; args ← ctor_args toks'; ret (v :: args)
  end.

(** [_exec_let] *)
Definition _exec_let (stmt : string) : M unit :=
  '(_, rest) ← unpack2 (split1 "let" stmt);
  '(name_part, expr_part) ← unpack2 (split1 "=" rest);
  let var_name := strip name_part in
  let expr := strip expr_part in
  if startswith "new " expr then
    let expr2 := strip (slice_from 4 expr) in
    '(cls_name, args_str) ← unpack2 (split1 "(" expr2);
    let cls_name := strip cls_name in
    let args_str :=
      match rsplit1 ")" args_str with Some (a, _) => a | None => args_str end in
    args ← (if is_empty (strip args_str) then ret []
            else ctor_args (split_all "," args_str));
    inst ← _instantiate cls_name args;
    o ← deref inst;
    set_var var_name {| inst := inst; view_cls := Instance.cls o |}
  else if startswith "clone " expr then
    let src_name := strip (slice_from 6 expr) in
    src_binding ← _get_binding src_name;
    new_inst ← _clone (inst src_binding);
    set_var var_name {| inst := new_inst; view_cls := view_cls src_binding |}
  else if startswith "cast<" expr then
    let after_cast := slice_from 5 expr in
    '(type_part, rest2) ← unpack2 (split1 ">" after_cast);
    let target_cls_name := strip type_part in
    let src_name := strip rest2 in
    src_binding ← _get_binding src_name;
    new_binding ← _cast_binding src_binding target_cls_name;
    set_var var_name new_binding
  else
    let src_name := expr in
    src_binding ← _get_binding src_name;
    set_var var_name {| inst := inst src_binding;
                        view_cls := view_cls src_binding |}.

(** [_exec_field_assign] *)
Definition _exec_field_assign (stmt : string) : M unit :=
  '(lhs, rhs) ← unpack2 (split1 "=" stmt);
  let right := strip rhs in
  if negb (is_int right) then raise InvalidAssignedValue
  else
    value ← convert right;
    let obj_part := strip lhs in
    '(var_name, field_name) ← unpack2 (split1 "." obj_part);
    let var_name := strip var_name in
    let field_name := strip field_name in
    binding ← _get_binding var_name;
    o ← deref (inst binding);
    match Instance.fields o !! field_name with
    | None => raise (UnknownField field_name (ClassDef.name (Instance.cls o)))
    | Some _ =>
        update (inst binding)
          {| Instance.cls := Instance.cls o;
             Instance.fields := <[field_name := value]> (Instance.fields o) |}
    end.

(** The loop of [_exec_call] over the tokens of the method. *)
Fixpoint token_values (o : Instance.t) (method_name : string)
    (tokens : list string) : M (list Z) :=
  match tokens with
  | [] => ret []
  | tok :: tokens' =>
      v ← (if is_int tok then convert tok
           else match Instance.fields o !! tok with
                | None => raise (UnknownFieldInMethod tok method_name)
                | Some v => ret v
                end);
      values ← token_values o method_name tokens';
      ret (v :: values)
  end.

(** [_exec_call] *)
Definition _exec_call (stmt : string) : M unit :=
  '(_, rest) ← unpack2 (split1 "call" stmt);
  let rest := strip rest in
  '(var_part, method_name) ← unpack2 (split1 "." rest);
  let var_part := strip var_part in
  let method_name := strip method_name in
  binding ← _get_binding var_part;
  o ← deref (inst binding);
  let view_cls := view_cls binding in
  match ClassDef.lookup_method view_cls method_name with
  | None => raise (MethodNotFound method_name (ClassDef.name view_cls))
  | Some tokens =>
      values ← token_values o method_name tokens;
      ts ← texts values;
      print (join " " ts)
  end.

(** [_exec_statement]; [_exec_is] converts nothing. *)
Definition _exec_statement (stmt : string) : M unit :=
  let stmt :=
    strip (match split1 ";" stmt with Some (a, _) => a | None => stmt end) in
  if is_empty stmt then ret tt
  else if startswith "let " stmt then _exec_let stmt
  else if contains "." stmt && contains "=" stmt
          && negb (startswith "call " stmt)
  then _exec_field_assign stmt
  else if startswith "call " stmt then _exec_call stmt
  else if contains " is " stmt then _exec_is stmt
  else raise (UnknownStatement stmt).

(** The loop of [run]. *)
Fixpoint exec_all (stmts : list string) : M unit :=
  match stmts with
  | [] => ret tt
  | stmt :: stmts' => _ ← _exec_statement stmt; exec_all stmts'
  end.

(** [run] *)
Definition run : M unit :=
  self ← get_self; exec_all (statements self).

End Limited.

(** ** parser.py *)

(** Further Python string primitives, used by the parser. *)
Module PyText.

Import PyStr.

(** The line boundaries of [str.splitlines] on the code points below 256. *)
Definition is_linebreak (c : ascii) : bool :=
  let n := nat_of_ascii c in
  ((10 <=? n)%nat && (n <=? 13)%nat) || ((28 <=? n)%nat && (n <=? 30)%nat)
  || (n =? 133)%nat.

(** [s.splitlines()]; [after_cr] tells that the previous character was a
    carriage return, which forms one boundary with a line feed after it. *)
Fixpoint splitlines_from (after_cr : bool) (s : string) : list string :=
  match s with
  | EmptyString => []
  | String c s' =>
      if after_cr && Ascii.eqb c "010"%char then splitlines_from false s'
      else if is_linebreak c
      then EmptyString :: splitlines_from (Ascii.eqb c "013"%char) s'
      else match splitlines_from false s' with
           | [] => [String c EmptyString]
           | l :: ls => String c l :: ls
           end
  end.

Definition splitlines (s : string) : list string := splitlines_from false s.

(** [s.find(c)] for a one-character [c]: the first index, or [-1]. *)
Fixpoint find (c : ascii) (s : string) : Z :=
  match s with
  | EmptyString => -1
  | String x s' =>
      if Ascii.eqb x c then 0
      else let r := find c s' in if r <? 0 then -1 else r + 1
  end.

(** [s[i:j]] for [i] and [j] that are not negative. *)
Definition slice (i j : Z) (s : string) : string :=
  String.substring (Z.to_nat i) (Z.to_nat (j - i)) s.

(** [s.replace(a, b)] for one-character [a] and [b]. *)
Fixpoint replace (a b : ascii) (s : string) : string :=
  match s with
  | EmptyString => EmptyString
  | String c s' => String (if Ascii.eqb c a then b else c) (replace a b s')
  end.

(** [s.split()]: the pieces between runs of white space. *)
Fixpoint split_ws (s : string) : list string :=
  match s with
  | EmptyString => []
  | String c s' =>
      if isspace c then split_ws s'
      else match s' with
           | EmptyString => [String c EmptyString]
           | String c' _ =>
               if isspace c' then String c EmptyString :: split_ws s'
               else match split_ws s' with
                    | h :: t => String c h :: t
                    | [] => [String c EmptyString]
                    end
           end
  end.

(** The first run of characters that are not white space, and the rest. *)
Fixpoint word_rest (s : string) : string * string :=
  match s with
  | EmptyString => (EmptyString, EmptyString)
  | String c s' =>
      if isspace c then (EmptyString, s)
      else let '(w, r) := word_rest s' in (String c w, r)
  end.

(** [s.split(None, 1)]: no piece, the only word, or the first word and
    what follows the white space after it. *)
Definition split_ws1 (s : string) : list string :=
  let s := lstrip s in
  if is_empty s then []
  else let '(w, r) := word_rest s in
       let r := lstrip r in
       if is_empty r then [w] else [w; r].

End PyText.

Arguments PyText.splitlines : simpl never.
Arguments PyText.find : simpl never.
Arguments PyText.slice : simpl never.
Arguments PyText.replace : simpl never.
Arguments PyText.split_ws : simpl never.
Arguments PyText.split_ws1 : simpl never.

(** The exceptions of the parser: the [ValueError]s by message, the
    [IndexError] of [line.split("=", 1)[1]] on a line without [=], and the
    [RecursionError] of [all_fields] on a cyclic base chain. *)
Inductive load_exn : Type :=
| ClassDefinedTwice (name : string)
| UnknownBaseClass (base_name cls_name : string)
| FieldRedefined (field_name cls_name : string)
| LoadUnpackError
| LoadIndexError
| LoadRecursionError.

(** [Parser.classes]: a dictionary in insertion order, as the list of its
    items.  A [ClassDef] gets its identity when it is created: its rank in
    the dictionary. *)
Abbreviation class_table := (list (string * ClassDef.t)).

(** [name in self.classes] and [self.classes[name]] *)
Fixpoint table_lookup (table : class_table) (name : string)
  : option ClassDef.t :=
  match table with
  | [] => None
  | (key, cls) :: table' =>
      if decide (key = name) then Some cls else table_lookup table' name
  end.

Module Parser.

Import PyStr PyText.

(** What a class block has declared so far: [base_name], [fields] and
    [methods] of [_parse_class_block]. *)
Record block : Type := mkBlock {
  block_base_name : option string;
  block_fields : list string;
  block_methods : gmap string (list string)
}.

(** The text between the first [[] and the first []], when both occur. *)
Definition bracket_inner (s : string) : option string :=
  let lb := find "[" s in
  let rb := find "]" s in
  if (0 <=? lb) && (0 <=? rb) then Some (slice (lb + 1) rb s) else None.

(** [[f.strip() for f in inner.split(",") if f.strip()]] *)
Definition field_names (inner : string) : list string :=
  filter (λ f, is_empty f = false) (strip <$> split_all "," inner).

(** [[t.strip() for t in inner.replace(",", " ").split() if t.strip()]] *)
Definition method_tokens (inner : string) : list string :=
  filter (λ t, is_empty t = false)
         (strip <$> split_ws (replace "," " " inner)).

(** One line of a [methods] block: [name -> [tokens]]. *)
Definition method_line (mline : string) (b : block) : block :=
  if contains "->" mline then
    match split1 "->" mline with
    | Some (lhs, rhs) =>
        let mname := strip lhs in
        let rb_part := strip rhs in
        let tokens :=
          match bracket_inner rb_part with
          | Some inner => method_tokens inner
          | None => []
          end in
        {| block_base_name := block_base_name b;
           block_fields := block_fields b;
           block_methods := <[mname := tokens]> (block_methods b) |}
    | None => b
    end
  else b.

(** The two nested loops of [_parse_class_block] over the lines after the
    header; [in_methods] tells that the inner loop, which reads the
    [methods] block up to its [}], is running.  Returns the declarations
    and the lines from the index the function returns. *)
Fixpoint class_body (in_methods : bool) (lines : list string) (b : block)
  : load_exn + (block * list string) :=
  match lines with
  | [] => inr (b, [])
  | l :: rest =>
      let line := strip l in
      if in_methods then
        if startswith "}" line then class_body false rest b
        else if is_empty line then class_body true rest b
        else class_body true rest (method_line line b)
      else if is_empty line then inr (b, rest)
      else if startswith "CLASS " line then inr (b, lines)
      else if startswith "base" line then
        match split1 "=" line with
        | None => inl LoadIndexError
        | Some (_, part) =>
            let part := strip part in
            class_body false rest
              {| block_base_name :=
                   if decide (part = "None") then None else Some part;
                 block_fields := block_fields b;
                 block_methods := block_methods b |}
        end
      else if startswith "fields" line then
        match split1 "=" line with
        | None => inl LoadIndexError
        | Some (_, bracket_part) =>
            class_body false rest
              {| block_base_name := block_base_name b;
                 block_fields :=
                   match bracket_inner bracket_part with
                   | Some inner => field_names inner
                   | None => []
                   end;
                 block_methods := block_methods b |}
        end
      else if startswith "methods" line then class_body true rest b
      else class_body false rest b
  end.

(** [_parse_class_block(lines, i)], on the lines from index [i]. *)
Definition _parse_class_block (lines : list string) (classes : class_table)
  : load_exn + (class_table * list string) :=
  match lines with
  | [] => inl LoadIndexError
  | l :: rest =>
      let header := strip l in
      match split_ws1 header with
      | [_; name] =>
          let name := strip name in
          match class_body false rest
                  {| block_base_name := None; block_fields := [];
                     block_methods := ∅ |} with
          | inl e => inl e
          | inr (b, rest') =>
              let cls :=
                ClassDef.mk (length classes) name (block_base_name b)
                            (block_fields b) (block_methods b) None in
              if decide (is_Some (table_lookup classes name))
              then inl (ClassDefinedTwice name)
              else inr (classes ++ [(name, cls)], rest')
          end
      | _ => inl LoadUnpackError
      end
  end.

(** The first loop of [parse], over the class blocks.  Every round moves
    on in the lines; [fuel] bounds the number of rounds and [None] is the
    loop cut short. *)
Fixpoint parse_classes (fuel : nat) (lines : list string) (classes : class_table)
  : option (load_exn + (class_table * list string)) :=
  match fuel with
  | O => None
  | S fuel' =>
      match lines with
      | [] => Some (inr (classes, []))
      | l :: rest =>
          let line := strip l in
          if is_empty line || startswith "//" line || startswith ";" line
          then parse_classes fuel' rest classes
          else if negb (startswith "CLASS " line) then Some (inr (classes, lines))
          else match _parse_class_block lines classes with
               | inl e => Some (inl e)
               | inr (classes', lines') => parse_classes fuel' lines' classes'
               end
      end
  end.

(** The second loop of [parse]: the remaining lines that are statements. *)
Fixpoint parse_statements (lines : list string) : list string :=
  match lines with
  | [] => []
  | l :: rest =>
      let line := strip l in
      if negb (is_empty line) && negb (startswith "//" line)
         && negb (startswith ";" line)
      then line :: parse_statements rest
      else parse_statements rest
  end.

(** The class object of [name] with its [base] references followed: what
    [cls.base = self.classes[cls.base_name]] makes of the declarations.
    The chain is followed for [fuel] classes; [None] is a chain that has
    not reached a class without base by then. *)
Fixpoint linked (fuel : nat) (table : class_table) (name : string)
  : option ClassDef.t :=
  match fuel with
  | O => None
  | S fuel' =>
      match table_lookup table name with
      | None => None
      | Some cls =>
          match ClassDef.base_name cls with
          | None => Some cls
          | Some base_name =>
              match linked fuel' table base_name with
              | None => None
              | Some b =>
                  Some (ClassDef.mk (ClassDef.oid cls) (ClassDef.name cls)
                          (ClassDef.base_name cls) (ClassDef.fields cls)
                          (ClassDef.methods cls) (Some b))
              end
          end
      end
  end.

(** The first loop of [_resolve_bases_and_check_fields]: every base name
    is the name of a class. *)
Fixpoint check_bases (table : class_table) (classes : class_table)
  : load_exn + unit :=
  match classes with
  | [] => inr tt
  | (_, cls) :: classes' =>
      match ClassDef.base_name cls with
      | None => check_bases table classes'
      | Some base_name =>
          if decide (is_Some (table_lookup table base_name))
          then check_bases table classes'
          else inl (UnknownBaseClass base_name (ClassDef.name cls))
      end
  end.

(** The second loop: no class declares a field of its bases again.  A
    base chain as long as the table comes back to a class it has been
    through, and [all_fields] does not return on it. *)
Fixpoint check_fields (table : class_table) (classes : class_table)
  : load_exn + unit :=
  match classes with
  | [] => inr tt
  | (_, cls) :: classes' =>
      match ClassDef.base_name cls with
      | None => check_fields table classes'
      | Some base_name =>
          match linked (length table) table base_name with
          | None => inl LoadRecursionError
          | Some b =>
              let inherited := ClassDef.all_fields b in
              match list_find (λ f, f ∈ inherited) (ClassDef.fields cls) with
              | Some (_, f) => inl (FieldRedefined f (ClassDef.name cls))
              | None => check_fields table classes'
              end
          end
      end
  end.

(** [_resolve_bases_and_check_fields]: the classes with their bases
    linked, in the order of the dictionary. *)
Definition _resolve_bases_and_check_fields (table : class_table)
  : load_exn + class_table :=
  match check_bases table table with
  | inl e => inl e
  | inr _ =>
      match check_fields table table with
      | inl e => inl e
      | inr _ =>
          inr (omap (λ item,
                       cls ← linked (S (length table)) table item.1;
                       Some (item.1, cls))
                    table)
      end
  end.

(** [Parser(src).parse()] *)
Definition parse (src : string)
  : option (load_exn + (class_table * list string)) :=
  let lines := rstrip <$> splitlines src in
  match parse_classes (S (length lines)) lines [] with
  | None => None
  | Some (inl e) => Some (inl e)
  | Some (inr (table, rest)) =>
      let statements := parse_statements rest in
      match _resolve_bases_and_check_fields table with
      | inl e => Some (inl e)
      | inr classes => Some (inr (classes, statements))
      end
  end.

End Parser.

(** [main]: the program is parsed, an interpreter is made of the classes
    and the statements, and run.  The dictionary of classes is given to
    the interpreter as a map. *)
Definition load (src : string) : option (load_exn + Interpreter) :=
  match Parser.parse src with
  | None => None
  | Some (inl e) => Some (inl e)
  | Some (inr (classes, statements)) =>
      Some (inr (__init__ (list_to_map classes) statements))
  end.

(** ** Concrete syntax

    How the interpreter reads a statement: the pieces that the [split],
    [strip] and [startswith] calls of each method cut out of the text.
    The theorems below name the parts of a statement through these
    functions. *)

Section Syntax.

Import PyStr.

(** The expression forms of [let], in the order [_exec_let] tests them.
    [New] carries the argument pieces as [split(",")] returns them. *)
Inductive let_expr : Type :=
| New (cls_name : string) (raw_args : list string)
| Clone (src_name : string)
| Cast (target_cls_name src_name : string)
| Alias (src_name : string).

Definition classify_expr (expr : string) : option let_expr :=
  if startswith "new " expr then
    '(cls_name, args_str) ← split1 "(" (strip (slice_from 4 expr));
    let args_str :=
      match rsplit1 ")" args_str with Some (a, _) => a | None => args_str end in
    Some (New (strip cls_name)
              (if is_empty (strip args_str) then []
               else split_all "," args_str))
  else if startswith "clone " expr then
    Some (Clone (strip (slice_from 6 expr)))
  else if startswith "cast<" expr then
    '(type_part, rest2) ← split1 ">" (slice_from 5 expr);
    Some (Cast (strip type_part) (strip rest2))
  else Some (Alias expr).

(** [let var_name = expr] *)
Definition parse_let (stmt : string) : option (string * let_expr) :=
  '(_, rest) ← split1 "let" stmt;
  '(name_part, expr_part) ← split1 "=" rest;
  form ← classify_expr (strip expr_part);
  Some (strip name_part, form).

(** [var_name.field_name = right] *)
Definition parse_assign (stmt : string) : option (string * string * string) :=
  '(lhs, rhs) ← split1 "=" stmt;
  '(var_name, field_name) ← split1 "." (strip lhs);
  Some (strip var_name, strip field_name, strip rhs).


(** [var_name is cls_name] *)
Definition parse_is (stmt : string) : option (string * string) :=
  '(var_name, cls_name) ← split1 " is " stmt;
  Some (strip var_name, strip cls_name).

End Syntax.

(** ** Vocabulary of the specification *)

(** The class chain that starts at [c]: [c], its base, the base of its
    base, and so on up to the root. *)
Fixpoint chain (c : ClassDef.t) : list ClassDef.t :=
  c :: match ClassDef.base c with
       | Some b => chain b
       | None => []
       end.

(** The ancestors of [c], root first. *)
Definition ancestors_root_first (c : ClassDef.t) : list ClassDef.t :=
  reverse (tail (chain c)).


(** Every binding denotes an allocated object whose runtime class is a
    subclass of the view class. *)
Definition view_invariant (self : Interpreter) : Prop :=
  ∀ x b, env self !! x = Some b →
    ∃ o, store self !! inst b = Some o
         ∧ ClassDef.is_subclass_of (Instance.cls o) (view_cls b) = true.

(** A signed decimal literal as a token, and the integer it denotes. *)
Definition literal (d : Decimal.int) : string := NilEmpty.string_of_int d.

Definition has_digits (d : Decimal.int) : Prop :=
  match d with Decimal.Pos u | Decimal.Neg u => u ≠ Decimal.Nil end.



(** ** The scenario of the specification

    Class [A] (no base, field [a], method [show -> [a]]) and class [B]
    extending [A] (field [b], method [show -> [b]]); [x] is a [B] built
    from [(1, 2)] and [y] is [x] cast to [A]. *)

Definition class_A : ClassDef.t :=
  ClassDef.mk 0 "A" None ["a"] {[ "show" := ["a"] ]} None.

Definition class_B : ClassDef.t :=
  ClassDef.mk 1 "B" (Some "A") ["b"] {[ "show" := ["b"] ]} (Some class_A).

Definition scenario_classes : gmap string ClassDef.t :=
  <["A" := class_A]> (<["B" := class_B]> ∅).

Definition scenario : Interpreter :=
  (exec_all ["let x = new B(1, 2)"; "let y = cast<A> x"]
            (__init__ scenario_classes [])).1.

Definition object_x : Instance.t :=
  {| Instance.cls := class_B;
     Instance.fields := <["b" := 2]> (<["a" := 1]> ∅) |}.

(** A class whose own field list repeats a name: the loader only compares
    the fields of a class with the inherited ones. *)
Definition class_twice : ClassDef.t :=
  ClassDef.mk 0 "A" None ["a"; "a"] ∅ None.

(** What one statement may do to the interpreter: the class table stays,
    every object keeps its place and its runtime class, and the
    environment either stays or gets one binding (re)placed, on an
    allocated object whose runtime class is a subclass of the view. *)
Definition step_shape (self self' : Interpreter) : Prop :=
  classes self' = classes self
  ∧ (∀ r o, store self !! r = Some o →
       ∃ o', store self' !! r = Some o'
             ∧ Instance.cls o' = Instance.cls o)
  ∧ (env self' = env self
     ∨ ∃ v b' o,
         env self' = <[v := b']> (env self)
         ∧ store self' !! inst b' = Some o
         ∧ ClassDef.is_subclass_of (Instance.cls o) (view_cls b') = true).



(** The dictionary of the parser before the bases are linked: every class
    is registered under its name, its identity is its rank, it has no base
    reference yet, and no name is registered twice (looking its name up
    finds the class itself). *)
Definition table_wf (table : class_table) : Prop :=
  ∀ i name cls, table !! i = Some (name, cls) →
    ClassDef.name cls = name
    ∧ ClassDef.oid cls = i
    ∧ ClassDef.base cls = None
    ∧ table_lookup table name = Some cls.

(** The scenario as a program text, and the interpreter [main] makes of
    it before it runs. *)
Definition scenario_source : string :=
  PyStr.join (String "010" EmptyString)
    ["CLASS A"; "fields = [a]"; "methods = {"; "show -> [a]"; "}"; "";
     "CLASS B"; "base = A"; "fields = [b]"; "methods = {"; "show -> [b]"; "}";
     ""; "let x = new B(1, 2)"; "let y = cast<A> x"].

Definition scenario_loaded : Interpreter :=
  __init__ scenario_classes ["let x = new B(1, 2)"; "let y = cast<A> x"].

(** * Properties *)

(** ** The class model *)

Section ClassModel.

Import ClassDef.

Lemma chain_unfold c :
  chain c = c :: match base c with Some b => chain b | None => [] end.
Proof. by destruct c. Qed.

Lemma is_subclass_of_refl c : is_subclass_of c c = true.
Proof. destruct c; simpl. by rewrite Nat.eqb_refl. Qed.

(** [is_subclass_of] finds [other] on the chain of [self]. *)
Lemma is_subclass_of_chain self other :
  is_subclass_of self other = true ↔ ∃ k, k ∈ chain self ∧ oid k = oid other.
Proof.
  induction self as [o n bn fs ms|o n bn fs ms b IH] using chain_ind; simpl.
  - destruct (Nat.eqb_spec o (oid other)) as [He|Hne]; split; try done.
    + intros _. eexists; split; [apply list_elem_of_here|done].
    + intros (k & Hk & Hoid). apply list_elem_of_singleton in Hk. by subst k.
  - destruct (Nat.eqb_spec o (oid other)) as [He|Hne].
    + split; [|done]. intros _. eexists; split; [apply list_elem_of_here|done].
    + rewrite IH. split.
      * intros (k & Hk & Hoid). exists k. split; [by apply list_elem_of_further|done].
      * intros (k & Hk & Hoid). apply elem_of_cons in Hk as [->|Hk]; [done|].
        by exists k.
Qed.



(** [all_fields]: the fields of the classes of the chain, root first. *)
Lemma all_fields_chain c :
  all_fields c = concat (fields <$> reverse (chain c)).
Proof.
  induction c as [o n bn fs ms|o n bn fs ms b IH] using chain_ind; simpl.
  - by rewrite app_nil_r.
  - rewrite IH, reverse_cons, fmap_app, concat_app. simpl.
    by rewrite app_nil_r.
Qed.

Lemma all_fields_ancestors c :
  all_fields c = concat (fields <$> ancestors_root_first c) ++ fields c.
Proof.
  rewrite all_fields_chain. unfold ancestors_root_first.
  destruct c as [o n bn fs ms b]; simpl.
  rewrite reverse_cons, fmap_app, concat_app. simpl. by rewrite app_nil_r.
Qed.

End ClassModel.

(** ** Execution of the statements on their parts *)

Ltac monad_unfold :=
  unfold mbind, M_bind, bind, mret, M_ret, ret, raise, unpack2, get_self.

Section Execution.

Import PyStr.

(** The parts of a [let] statement, as [_exec_let] cuts them. *)
Lemma parse_let_inv stmt v form :
  parse_let stmt = Some (v, form) →
  ∃ pre rest name_part expr_part,
    split1 "let" stmt = Some (pre, rest)
    ∧ split1 "=" rest = Some (name_part, expr_part)
    ∧ v = strip name_part
    ∧ classify_expr (strip expr_part) = Some form.
Proof.
  unfold parse_let. intros H.
  destruct (split1 "let" stmt) as [[pre rest]|] eqn:Hlet; [|done]. simpl in H.
  destruct (split1 "=" rest) as [[name_part expr_part]|] eqn:Heq; [|done].
  simpl in H.
  destruct (classify_expr (strip expr_part)) as [form'|] eqn:Hform; [|done].
  simpl in H. simplify_eq. by exists pre, rest, name_part, expr_part.
Qed.

Lemma ctor_args_literals raw self :
  Forall (λ tok, is_int (strip tok) = true) raw →
  ctor_args raw self = (self, Returns ((λ tok, int (strip tok)) <$> raw)).
Proof.
  induction 1 as [|tok raw Htok _ IH]; [done|].
  simpl. rewrite Htok. simpl. monad_unfold. by rewrite IH.
Qed.


(** The expression forms exclude each other as [_exec_let] tests them. *)
Lemma classify_expr_inv expr form :
  classify_expr expr = Some form →
  match form with
  | New cls_name raw =>
      startswith "new " expr = true
      ∧ ∃ cn args_str,
          split1 "(" (strip (slice_from 4 expr)) = Some (cn, args_str)
          ∧ cls_name = strip cn
          ∧ raw = (let args_str :=
                     match rsplit1 ")" args_str with
                     | Some (a, _) => a
                     | None => args_str
                     end in
                   if is_empty (strip args_str) then []
                   else split_all "," args_str)
  | Clone src_name =>
      startswith "new " expr = false
      ∧ startswith "clone " expr = true
      ∧ src_name = strip (slice_from 6 expr)
  | Cast target_cls_name src_name =>
      startswith "new " expr = false
      ∧ startswith "clone " expr = false
      ∧ startswith "cast<" expr = true
      ∧ ∃ type_part rest2,
          split1 ">" (slice_from 5 expr) = Some (type_part, rest2)
          ∧ target_cls_name = strip type_part
          ∧ src_name = strip rest2
  | Alias src_name =>
      startswith "new " expr = false
      ∧ startswith "clone " expr = false
      ∧ startswith "cast<" expr = false
      ∧ src_name = expr
  end.
Proof.
  unfold classify_expr. intros H.
  destruct (startswith "new " expr) eqn:Hnew.
  { destruct (split1 "(" _) as [[cn args_str]|] eqn:Hpar; simplify_eq/=.
    split; [done|]. by exists cn, args_str. }
  destruct (startswith "clone " expr) eqn:Hclone; [by simplify_eq/=|].
  destruct (startswith "cast<" expr) eqn:Hcast; [|by simplify_eq/=].
  destruct (split1 ">" _) as [[type_part rest2]|] eqn:Hgt; simplify_eq/=.
  do 3 (split; [done|]). by exists type_part, rest2.
Qed.

Lemma exec_let_new stmt v cls_name raw self :
  parse_let stmt = Some (v, New cls_name raw) →
  _exec_let stmt self =
    (args ← ctor_args raw;
     inst ← _instantiate cls_name args;
     o ← deref inst;
     set_var v {| inst := inst; view_cls := Instance.cls o |}) self.
Proof.
  intros (pre & rest & np & ep & Hlet & Heq & -> & Hform)%parse_let_inv.
  apply classify_expr_inv in Hform
    as (Hnew & cn & args_str & Hpar & -> & ->).
  unfold _exec_let. monad_unfold. rewrite Hlet; simpl. rewrite Heq; simpl.
  rewrite Hnew, Hpar; simpl.
  by destruct (is_empty _).
Qed.

Lemma exec_let_clone stmt v src_name self :
  parse_let stmt = Some (v, Clone src_name) →
  _exec_let stmt self =
    (src_binding ← _get_binding src_name;
     new_inst ← _clone (inst src_binding);
     set_var v {| inst := new_inst; view_cls := view_cls src_binding |}) self.
Proof.
  intros (pre & rest & np & ep & Hlet & Heq & -> & Hform)%parse_let_inv.
  apply classify_expr_inv in Hform as (Hnew & Hclone & ->).
  unfold _exec_let. monad_unfold. rewrite Hlet; simpl. rewrite Heq; simpl.
  by rewrite Hnew, Hclone.
Qed.

Lemma exec_let_cast stmt v target_cls_name src_name self :
  parse_let stmt = Some (v, Cast target_cls_name src_name) →
  _exec_let stmt self =
    (src_binding ← _get_binding src_name;
     new_binding ← _cast_binding src_binding target_cls_name;
     set_var v new_binding) self.
Proof.
  intros (pre & rest & np & ep & Hlet & Heq & -> & Hform)%parse_let_inv.
  apply classify_expr_inv in Hform
    as (Hnew & Hclone & Hcast & tp & r2 & Hgt & -> & ->).
  unfold _exec_let. monad_unfold. rewrite Hlet; simpl. rewrite Heq; simpl.
  by rewrite Hnew, Hclone, Hcast, Hgt.
Qed.

Lemma exec_let_alias stmt v src_name self :
  parse_let stmt = Some (v, Alias src_name) →
  _exec_let stmt self =
    (src_binding ← _get_binding src_name;
     set_var v {| inst := inst src_binding;
                  view_cls := view_cls src_binding |}) self.
Proof.
  intros (pre & rest & np & ep & Hlet & Heq & -> & Hform)%parse_let_inv.
  apply classify_expr_inv in Hform as (Hnew & Hclone & Hcast & ->).
  unfold _exec_let. monad_unfold. rewrite Hlet; simpl. rewrite Heq; simpl.
  by rewrite Hnew, Hclone, Hcast.
Qed.

Lemma exec_field_assign_parts stmt x f rhs self :
  parse_assign stmt = Some (x, f, rhs) →
  _exec_field_assign stmt self =
    (if negb (is_int rhs) then raise InvalidAssignedValue
     else
       binding ← _get_binding x;
       o ← deref (inst binding);
       match Instance.fields o !! f with
       | None => raise (UnknownField f (ClassDef.name (Instance.cls o)))
       | Some _ =>
           update (inst binding)
             {| Instance.cls := Instance.cls o;
                Instance.fields := <[f := int rhs]> (Instance.fields o) |}
       end) self.
Proof.
  unfold parse_assign. intros H.
  destruct (split1 "=" stmt) as [[lhs rhs']|] eqn:Heq; [|done]. simpl in H.
  destruct (split1 "." (strip lhs)) as [[vn fn]|] eqn:Hdot; [|done].
  simpl in H. simplify_eq.
  unfold _exec_field_assign. monad_unfold. rewrite Heq; simpl.
  destruct (is_int (strip rhs')); [|done]. simpl. by rewrite Hdot.
Qed.


Lemma exec_is_parts stmt x cls_name self :
  parse_is stmt = Some (x, cls_name) →
  _exec_is stmt self =
    match env self !! x, classes self !! cls_name with
    | Some binding, Some cls =>
        (o ← deref (inst binding);
         print (if ClassDef.is_subclass_of (Instance.cls o) cls
                then "IS" else "ISN'T")) self
    | _, _ => print "ISN'T" self
    end.
Proof.
  unfold parse_is. intros H.
  destruct (split1 " is " stmt) as [[vn cn]|] eqn:His; [|done].
  simpl in H. simplify_eq.
  unfold _exec_is. monad_unfold. rewrite His; simpl.
  by repeat case_match.
Qed.



Lemma get_binding_bound x b self :
  env self !! x = Some b → _get_binding x self = (self, Returns b).
Proof. intros H. unfold _get_binding. monad_unfold. by rewrite H. Qed.

Lemma get_binding_unbound x self :
  env self !! x = None →
  _get_binding x self = (self, Raises (UnknownVariable x)).
Proof. intros H. unfold _get_binding. monad_unfold. by rewrite H. Qed.

Lemma deref_allocated r o self :
  store self !! r = Some o → deref r self = (self, Returns o).
Proof. intros H. unfold deref. by rewrite H. Qed.

(** Running the rest of a method after a step that returned or raised. *)
Lemma bind_returns {A B} (m : M A) (k : A → M B) self self' a :
  m self = (self', Returns a) → (x ← m; k x) self = k a self'.
Proof. intros H. monad_unfold. by rewrite H. Qed.

Lemma bind_raises {A B} (m : M A) (k : A → M B) self self' e :
  m self = (self', Raises e) → (x ← m; k x) self = (self', Raises e).
Proof. intros H. monad_unfold. by rewrite H. Qed.

End Execution.

(** ** The scenario of the specification, executed *)

Lemma scenario_env_x :
  env scenario !! "x" = Some {| inst := 0%nat; view_cls := class_B |}.
Proof. vm_compute. reflexivity. Qed.

Lemma scenario_env_y :
  env scenario !! "y" = Some {| inst := 0%nat; view_cls := class_A |}.
Proof. vm_compute. reflexivity. Qed.

Lemma scenario_store : store scenario = [object_x].
Proof. vm_compute. reflexivity. Qed.

(** The example of the specification: [call y.show] emits [1],
    [call x.show] emits [2], [x is A] and [y is B] both report IS. *)
Example scenario_output :
  stdout (exec_all ["call y.show"; "call x.show"; "x is A"; "y is B"]
                   scenario).1
  = ["1"; "2"; "IS"; "IS"].
Proof. vm_compute. reflexivity. Qed.

Example comment_is_stripped :
  _exec_statement "call x.show   ; prints b" scenario
  = (printed scenario "2", Returns tt).
Proof. vm_compute. reflexivity. Qed.

Example unknown_statement :
  _exec_statement "print x" scenario
  = (scenario, Raises (UnknownStatement "print x")).
Proof. vm_compute. reflexivity. Qed.

Example is_int_examples :
  is_int "5" = true ∧ is_int "-3" = true ∧ is_int "007" = true
  ∧ is_int "" = false ∧ is_int "-" = false ∧ is_int "a" = false
  ∧ is_int "3.5" = false ∧ is_int "--3" = false ∧ is_int "+3" = false.
Proof. repeat split; reflexivity. Qed.

Example int_examples : int "5" = 5 ∧ int "-3" = -3 ∧ int "007" = 7.
Proof. repeat split; reflexivity. Qed.

(** ** Method invocation *)



(** ** Type test *)

(** C2. [name is ClassName] never raises: it prints ["ISN'T"] when the
    name is unbound or the class undeclared, and otherwise prints ["IS"]
    exactly when the runtime class of the bound instance is a subclass of
    the named class, whatever the view class of the binding. *)
Theorem is_tests_runtime_class self stmt x cls_name :
  parse_is stmt = Some (x, cls_name) →
  (∀ b, env self !! x = Some b → is_Some (store self !! inst b)) →
  (env self !! x = None ∨ classes self !! cls_name = None →
   _exec_is stmt self = (printed self "ISN'T", Returns tt))
  ∧ (∀ b o c,
       env self !! x = Some b →
       store self !! inst b = Some o →
       classes self !! cls_name = Some c →
       _exec_is stmt self
       = (printed self
            (if ClassDef.is_subclass_of (Instance.cls o) c then "IS" else "ISN'T"),
          Returns tt))
  ∧ (∀ r view o c,
       env self !! x = Some {| inst := r; view_cls := view |} →
       store self !! r = Some o →
       classes self !! cls_name = Some c →
       ClassDef.oid (Instance.cls o) = ClassDef.oid c →
       _exec_is stmt self = (printed self "IS", Returns tt))
  ∧ (∃ verdict,
       _exec_is stmt self = (printed self verdict, Returns tt)
       ∧ (verdict = "IS" ∨ verdict = "ISN'T")).
Proof.
  intros Hparts Hvalid.
  rewrite (exec_is_parts _ _ _ _ Hparts).
  assert (Hbound : ∀ b o c,
             env self !! x = Some b →
             store self !! inst b = Some o →
             classes self !! cls_name = Some c →
             match env self !! x, classes self !! cls_name with
             | Some binding, Some cls =>
                 (o ← deref (inst binding);
                  print (if ClassDef.is_subclass_of (Instance.cls o) cls
                         then "IS" else "ISN'T")) self
             | _, _ => print "ISN'T" self
             end
             = (printed self
                  (if ClassDef.is_subclass_of (Instance.cls o) c
                   then "IS" else "ISN'T"),
                Returns tt)).
  { intros b o c Hb Ho Hc. rewrite Hb, Hc.
    by rewrite (bind_returns _ _ _ _ _ (deref_allocated _ _ _ Ho)). }
  split; [|split; [|split]].
  - intros [Hx|Hc].
    + by rewrite Hx.
    + rewrite Hc. by destruct (env self !! x).
  - exact Hbound.
  - intros r view o c Hb Ho Hc Hoid.
    rewrite (Hbound _ o c Hb Ho Hc).
    destruct (Instance.cls o) as [oo ? ? ? ? ?]; simpl in *.
    by rewrite Hoid, Nat.eqb_refl.
  - destruct (env self !! x) as [b|] eqn:Hb;
      [|exists "ISN'T"; by split; [|right]].
    destruct (classes self !! cls_name) as [c|] eqn:Hc;
      [|exists "ISN'T"; by split; [|right]].
    destruct (Hvalid b eq_refl) as [o Ho].
    rewrite (bind_returns _ _ _ _ _ (deref_allocated _ _ _ Ho)).
    eexists; split; [reflexivity|].
    destruct (ClassDef.is_subclass_of _ _); auto.
Qed.

Lemma is_tests_runtime_class_witness :
  _exec_is "y is B" scenario = (printed scenario "IS", Returns tt).
Proof.
  refine (proj1 (proj2 (proj2 (is_tests_runtime_class
            scenario "y is B" "y" "B" eq_refl _)))
          0%nat class_A object_x class_B scenario_env_y _ _ eq_refl).
  - intros b Hb. rewrite scenario_env_y in Hb. injection Hb as <-.
    exists object_x. vm_compute. reflexivity.
  - vm_compute. reflexivity.
  - vm_compute. reflexivity.
Defined.

(** ** Bindings: cast, alias, clone *)

Section Bindings.

Lemma cast_binding_ok self b target tc o :
  classes self !! target = Some tc →
  store self !! inst b = Some o →
  ClassDef.is_subclass_of (Instance.cls o) tc = true →
  _cast_binding b target self
  = (self, Returns {| inst := inst b; view_cls := tc |}).
Proof.
  intros Hc Ho Hsub. unfold _cast_binding. monad_unfold. rewrite Hc.
  rewrite (deref_allocated _ _ _ Ho). by rewrite Hsub.
Qed.

Lemma cast_binding_invalid self b target tc o :
  classes self !! target = Some tc →
  store self !! inst b = Some o →
  ClassDef.is_subclass_of (Instance.cls o) tc = false →
  _cast_binding b target self
  = (self, Raises (InvalidCast (ClassDef.name (Instance.cls o))
                               (ClassDef.name tc))).
Proof.
  intros Hc Ho Hsub. unfold _cast_binding. monad_unfold. rewrite Hc.
  rewrite (deref_allocated _ _ _ Ho). by rewrite Hsub.
Qed.

Lemma exec_let_cast_ok self stmt v target src b o tc :
  parse_let stmt = Some (v, Cast target src) →
  env self !! src = Some b →
  store self !! inst b = Some o →
  classes self !! target = Some tc →
  ClassDef.is_subclass_of (Instance.cls o) tc = true →
  _exec_let stmt self
  = (bound self v {| inst := inst b; view_cls := tc |}, Returns tt).
Proof.
  intros Hparts Hb Ho Hc Hsub. rewrite (exec_let_cast _ _ _ _ _ Hparts).
  rewrite (bind_returns _ _ _ _ _ (get_binding_bound _ _ _ Hb)).
  by rewrite (bind_returns _ _ _ _ _ (cast_binding_ok _ _ _ _ _ Hc Ho Hsub)).
Qed.

Lemma exec_let_cast_invalid self stmt v target src b o tc :
  parse_let stmt = Some (v, Cast target src) →
  env self !! src = Some b →
  store self !! inst b = Some o →
  classes self !! target = Some tc →
  ClassDef.is_subclass_of (Instance.cls o) tc = false →
  _exec_let stmt self
  = (self, Raises (InvalidCast (ClassDef.name (Instance.cls o))
                               (ClassDef.name tc))).
Proof.
  intros Hparts Hb Ho Hc Hsub. rewrite (exec_let_cast _ _ _ _ _ Hparts).
  rewrite (bind_returns _ _ _ _ _ (get_binding_bound _ _ _ Hb)).
  by rewrite (bind_raises _ _ _ _ _
                (cast_binding_invalid _ _ _ _ _ Hc Ho Hsub)).
Qed.

Lemma binding_eta b : {| inst := inst b; view_cls := view_cls b |} = b.
Proof. by destruct b. Qed.

Lemma exec_let_alias_ok self stmt v src b :
  parse_let stmt = Some (v, Alias src) →
  env self !! src = Some b →
  _exec_let stmt self = (bound self v b, Returns tt).
Proof.
  intros Hparts Hb. rewrite (exec_let_alias _ _ _ _ Hparts).
  rewrite (bind_returns _ _ _ _ _ (get_binding_bound _ _ _ Hb)).
  unfold set_var. by rewrite binding_eta.
Qed.

Lemma exec_let_clone_ok self stmt v src b o :
  parse_let stmt = Some (v, Clone src) →
  env self !! src = Some b →
  store self !! inst b = Some o →
  _exec_let stmt self
  = (bound (allocated self {| Instance.cls := Instance.cls o;
                              Instance.fields := Instance.fields o |})
           v {| inst := length (store self); view_cls := view_cls b |},
     Returns tt).
Proof.
  intros Hparts Hb Ho. rewrite (exec_let_clone _ _ _ _ Hparts).
  rewrite (bind_returns _ _ _ _ _ (get_binding_bound _ _ _ Hb)).
  unfold _clone. monad_unfold. by rewrite (deref_allocated _ _ _ Ho).
Qed.

(** A source variable that is not bound: [_get_binding] raises before
    anything is changed. *)
Lemma exec_let_unbound self stmt v form src :
  parse_let stmt = Some (v, form) →
  form = Clone src ∨ form = Alias src ∨ (∃ target, form = Cast target src) →
  env self !! src = None →
  _exec_let stmt self = (self, Raises (UnknownVariable src)).
Proof.
  intros Hparts [->|[->|[target ->]]] Hb.
  - rewrite (exec_let_clone _ _ _ _ Hparts).
    by rewrite (bind_raises _ _ _ _ _ (get_binding_unbound _ _ Hb)).
  - rewrite (exec_let_alias _ _ _ _ Hparts).
    by rewrite (bind_raises _ _ _ _ _ (get_binding_unbound _ _ Hb)).
  - rewrite (exec_let_cast _ _ _ _ _ Hparts).
    by rewrite (bind_raises _ _ _ _ _ (get_binding_unbound _ _ Hb)).
Qed.


(** A field assignment changes at most the object of the binding it goes
    through, and never the environment. *)
Lemma field_assign_frame self stmt x f rhs :
  parse_assign stmt = Some (x, f, rhs) →
  env (_exec_field_assign stmt self).1 = env self
  ∧ ∀ b r, env self !! x = Some b → inst b ≠ r →
      store (_exec_field_assign stmt self).1 !! r = store self !! r.
Proof.
  intros Hparts. rewrite (exec_field_assign_parts _ _ _ _ _ Hparts).
  destruct (is_int rhs); simpl; [|done].
  unfold _get_binding. monad_unfold.
  destruct (env self !! x) as [b|] eqn:Hb; [|done].
  unfold deref. destruct (store self !! inst b) as [o|]; [|done].
  destruct (Instance.fields o !! f); [|done].
  simpl. split; [done|]. intros b' r [= <-] Hne.
  by apply list_lookup_insert_ne.
Qed.

End Bindings.

(** C3. [let v = cast<Target> source], with [source] bound and [Target]
    declared, succeeds exactly when the runtime class of the source
    instance is a subclass of [Target].  On success the new binding denotes
    the same instance (the store is left as it is) with [Target] as view
    class; otherwise the statement raises [InvalidCast] and the interpreter
    is unchanged. *)
Theorem cast_requires_runtime_subclass self stmt v target src b o tc :
  parse_let stmt = Some (v, Cast target src) →
  env self !! src = Some b →
  store self !! inst b = Some o →
  classes self !! target = Some tc →
  (ClassDef.is_subclass_of (Instance.cls o) tc = true →
   ∃ self',
     _exec_let stmt self = (self', Returns tt)
     ∧ env self' = <[v := {| inst := inst b; view_cls := tc |}]> (env self)
     ∧ store self' = store self)
  ∧ (ClassDef.is_subclass_of (Instance.cls o) tc = false →
     _exec_let stmt self
     = (self, Raises (InvalidCast (ClassDef.name (Instance.cls o))
                                  (ClassDef.name tc))))
  ∧ ((∃ self', _exec_let stmt self = (self', Returns tt))
     ↔ ClassDef.is_subclass_of (Instance.cls o) tc = true).
Proof.
  intros Hparts Hb Ho Hc.
  split; [|split].
  - intros Hsub. eexists.
    split; [by apply (exec_let_cast_ok _ _ _ _ _ _ _ _ Hparts Hb Ho Hc)|done].
  - by apply (exec_let_cast_invalid _ _ _ _ _ _ _ _ Hparts Hb Ho Hc).
  - split.
    + intros [self' Hrun].
      destruct (ClassDef.is_subclass_of (Instance.cls o) tc) eqn:Hsub; [done|].
      rewrite (exec_let_cast_invalid _ _ _ _ _ _ _ _ Hparts Hb Ho Hc Hsub) in Hrun.
      discriminate.
    + intros Hsub. eexists.
      by apply (exec_let_cast_ok _ _ _ _ _ _ _ _ Hparts Hb Ho Hc).
Qed.

Lemma cast_requires_runtime_subclass_witness :
  ∃ self',
    _exec_let "let z = cast<A> x" scenario = (self', Returns tt)
    ∧ env self' = <["z" := {| inst := 0%nat; view_cls := class_A |}]> (env scenario)
    ∧ store self' = store scenario.
Proof.
  refine (proj1 (cast_requires_runtime_subclass
            scenario "let z = cast<A> x" "z" "A" "x"
            {| inst := 0%nat; view_cls := class_B |} object_x class_A
            eq_refl scenario_env_x _ _) _);
    vm_compute; reflexivity.
Defined.

(** A cast to a more derived class is refused: an [A] object does not
    become a [B]. *)
Example cast_to_derived_class_refused :
  _exec_let "let d = cast<B> a"
    (exec_all ["let a = new A(1)"] (__init__ scenario_classes [])).1
  = ((exec_all ["let a = new A(1)"] (__init__ scenario_classes [])).1,
     Raises (InvalidCast "A" "B")).
Proof. vm_compute. reflexivity. Qed.



(** C5. [let v = clone source] with [source] bound allocates a new
    instance with the runtime class of the source instance and a copy of
    its field map, and binds [v] to it under the view class of the source
    binding; an unbound source raises [UnknownVariable].  The copy is
    independent: in any later state, a field assignment through a binding
    on the clone leaves the source object as it is, and one through a
    binding on the source leaves the clone as it is. *)
Theorem clone_is_independent self stmt v src :
  parse_let stmt = Some (v, Clone src) →
  (env self !! src = None →
   _exec_let stmt self = (self, Raises (UnknownVariable src)))
  ∧ (∀ b o,
       env self !! src = Some b →
       store self !! inst b = Some o →
       ∃ self' r copy,
         _exec_let stmt self = (self', Returns tt)
         ∧ env self' = <[v := {| inst := r; view_cls := view_cls b |}]> (env self)
         ∧ store self' = store self ++ [copy]
         ∧ store self' !! r = Some copy
         ∧ store self' !! inst b = Some o
         ∧ r ≠ inst b
         ∧ Instance.cls copy = Instance.cls o
         ∧ Instance.fields copy = Instance.fields o
         ∧ (∀ later stmt2 x f rhs bx,
              parse_assign stmt2 = Some (x, f, rhs) →
              env later !! x = Some bx →
              (inst bx = r →
               store (_exec_field_assign stmt2 later).1 !! inst b
               = store later !! inst b)
              ∧ (inst bx = inst b →
                 store (_exec_field_assign stmt2 later).1 !! r
                 = store later !! r))).
Proof.
  intros Hparts. split.
  - intros Hb. apply (exec_let_unbound _ _ _ _ _ Hparts); auto.
  - intros b o Hb Ho.
    pose proof (lookup_lt_Some _ _ _ Ho) as Hlt.
    eexists _, (length (store self)), _.
    split; [by apply (exec_let_clone_ok _ _ _ _ _ _ Hparts Hb Ho)|].
    simpl. split; [done|]. split; [done|].
    split; [by rewrite lookup_app_r, Nat.sub_diag by done|].
    split; [by rewrite lookup_app_l|].
    split; [lia|]. split; [done|]. split; [done|].
    intros later stmt2 x f rhs bx Hparts2 Hbx.
    destruct (field_assign_frame later _ _ _ _ Hparts2) as [_ Hframe].
    split; intros Hinst; apply (Hframe bx _ Hbx); lia.
Qed.

Lemma clone_is_independent_witness :
  ∃ self' r copy,
    _exec_let "let z = clone y" scenario = (self', Returns tt)
    ∧ env self' = <["z" := {| inst := r; view_cls := class_A |}]> (env scenario)
    ∧ store self' = store scenario ++ [copy]
    ∧ store self' !! r = Some copy
    ∧ store self' !! 0%nat = Some object_x
    ∧ r ≠ 0%nat
    ∧ Instance.cls copy = class_B
    ∧ Instance.fields copy = Instance.fields object_x
    ∧ (∀ later stmt2 x f rhs bx,
         parse_assign stmt2 = Some (x, f, rhs) →
         env later !! x = Some bx →
         (inst bx = r →
          store (_exec_field_assign stmt2 later).1 !! 0%nat
          = store later !! 0%nat)
         ∧ (inst bx = 0%nat →
            store (_exec_field_assign stmt2 later).1 !! r
            = store later !! r)).
Proof.
  refine (proj2 (clone_is_independent scenario "let z = clone y" "z" "y" eq_refl)
            {| inst := 0%nat; view_cls := class_A |} object_x scenario_env_y _).
  vm_compute. reflexivity.
Defined.

(** The clone of the scenario keeps its own value of [a] when the source
    is assigned, and the other way round. *)
Example clone_then_assign :
  stdout (exec_all ["let z = clone y"; "z.a = 5"; "x.a = 9";
                    "call y.show"; "call z.show"] scenario).1
  = ["9"; "5"].
Proof. vm_compute. reflexivity. Qed.

(** ** Construction *)

Section Construction.

Context {V : Type}.
Implicit Types (items : list (string * V)) (ks : list string) (vs : list V).

Lemma dict_snoc items k (v : V) :
  dict (items ++ [(k, v)]) = <[k := v]> (dict items).
Proof. unfold dict. by rewrite foldl_app. Qed.

(** The value of a key is the one of its last item. *)
Lemma dict_lookup_last items i k (v : V) :
  items !! i = Some (k, v) →
  (∀ j kv, (i < j)%nat → items !! j = Some kv → kv.1 ≠ k) →
  dict items !! k = Some v.
Proof.
  induction items as [|[k' v'] items IH] using rev_ind; [done|].
  intros Hi Hlast. rewrite dict_snoc.
  destruct (decide (i = length items)) as [->|Hne].
  - rewrite lookup_app_r, Nat.sub_diag in Hi by done. simplify_eq/=.
    by rewrite lookup_insert_eq.
  - assert (Hlt : (i < length items)%nat).
    { apply lookup_lt_Some in Hi. rewrite length_app in Hi. simpl in Hi. lia. }
    rewrite lookup_app_l in Hi by done.
    rewrite lookup_insert_ne.
    + apply IH; [done|]. intros j kv Hj Hkv.
      apply (Hlast j kv Hj). by apply lookup_app_l_Some.
    + apply (Hlast (length items) (k', v') Hlt).
      by rewrite lookup_app_r, Nat.sub_diag.
Qed.

Lemma dict_lookup_is_Some items k :
  is_Some (dict items !! k) ↔ k ∈ items.*1.
Proof.
  induction items as [|[k' v'] items IH] using rev_ind.
  - unfold dict. simpl. rewrite lookup_empty. split; [by intros [??]|].
    by intros ?%elem_of_nil.
  - rewrite dict_snoc, fmap_app, elem_of_app. simpl.
    rewrite list_elem_of_singleton, <- IH.
    destruct (decide (k' = k)) as [->|Hne].
    + rewrite lookup_insert_eq. split; [by right|by eexists].
    + rewrite lookup_insert_ne by done. split; [by left|].
      by intros [?|?]; [|congruence].
Qed.

Lemma dict_zip_lookup_last ks vs i k (v : V) :
  ks !! i = Some k →
  vs !! i = Some v →
  (∀ j, (i < j)%nat → ks !! j ≠ Some k) →
  dict (zip ks vs) !! k = Some v.
Proof.
  intros Hk Hv Hlast. apply (dict_lookup_last _ i).
  - apply lookup_zip_with_Some. by exists k, v.
  - intros j [k' v'] Hj (? & ? & ? & Hk' & _)%lookup_zip_with_Some.
    simplify_eq/=. intros ->. by apply (Hlast j).
Qed.

End Construction.

Lemma instantiate_ok self cls_name c args :
  classes self !! cls_name = Some c →
  length args = length (ClassDef.all_fields c) →
  _instantiate cls_name args self
  = (allocated self {| Instance.cls := c;
                       Instance.fields := dict (zip (ClassDef.all_fields c) args) |},
     Returns (length (store self))).
Proof.
  intros Hc Hlen. unfold _instantiate. monad_unfold. rewrite Hc.
  by rewrite decide_False by (intros ?; congruence).
Qed.

Lemma instantiate_arity_mismatch self cls_name c args :
  classes self !! cls_name = Some c →
  length args ≠ length (ClassDef.all_fields c) →
  _instantiate cls_name args self
  = (self, Raises (ArityMismatch cls_name (length (ClassDef.all_fields c))
                                 (length args))).
Proof.
  intros Hc Hlen. unfold _instantiate. monad_unfold. rewrite Hc.
  by rewrite decide_True by (intros ?; congruence).
Qed.

(** C6, as stated, fails on [class_twice]: [new A(1, 2)] succeeds, the
    first field of [all_fields] is [a] and the first argument is [1], but
    the field [a] of the new instance holds [2]. *)
Lemma new_positional_counterexample :
  ¬ (∀ self cls_name c args self' r o i f v,
       classes self !! cls_name = Some c →
       _instantiate cls_name args self = (self', Returns r) →
       store self' !! r = Some o →
       ClassDef.all_fields c !! i = Some f →
       args !! i = Some v →
       Instance.fields o !! f = Some v).
Proof.
  intros H.
  specialize (H (__init__ {[ "A" := class_twice ]} []) "A" class_twice [1; 2]
                _ _ _ 0%nat "a" 1 eq_refl eq_refl eq_refl eq_refl eq_refl).
  vm_compute in H. discriminate H.
Qed.

(** C6 (amended). [all_fields c] is the fields of the ancestors, root
    first, followed by the own fields of [c]; [new] succeeds exactly with
    as many arguments as [all_fields c] has names; the new instance then
    has exactly these names as fields, and the name at a position holds
    the argument at that position provided the name does not occur again
    at a later position (so at every position when no name is repeated). *)
Theorem new_assigns_fields_in_order self cls_name c args :
  classes self !! cls_name = Some c →
  ClassDef.all_fields c
  = concat (ClassDef.fields <$> ancestors_root_first c) ++ ClassDef.fields c
  ∧ ((∃ self' r, _instantiate cls_name args self = (self', Returns r))
     ↔ length args = length (ClassDef.all_fields c))
  ∧ (length args = length (ClassDef.all_fields c) →
     ∃ o,
       _instantiate cls_name args self
       = (allocated self o, Returns (length (store self)))
       ∧ Instance.cls o = c
       ∧ (∀ f, is_Some (Instance.fields o !! f) ↔ f ∈ ClassDef.all_fields c)
       ∧ (∀ i f v,
            ClassDef.all_fields c !! i = Some f →
            args !! i = Some v →
            (∀ j, (i < j)%nat → ClassDef.all_fields c !! j ≠ Some f) →
            Instance.fields o !! f = Some v)
       ∧ (NoDup (ClassDef.all_fields c) →
          ∀ i f v,
            ClassDef.all_fields c !! i = Some f →
            args !! i = Some v →
            Instance.fields o !! f = Some v)).
Proof.
  intros Hc. split; [apply all_fields_ancestors|]. split.
  - split.
    + intros (self' & r & Hrun).
      destruct (decide (length args = length (ClassDef.all_fields c)))
        as [?|Hne]; [done|].
      rewrite (instantiate_arity_mismatch _ _ _ _ Hc Hne) in Hrun. discriminate.
    + intros Hlen. eexists _, _. by apply instantiate_ok.
  - intros Hlen. eexists.
    split; [by apply instantiate_ok|]. simpl. split; [done|].
    assert (Hlast : ∀ i f v,
               ClassDef.all_fields c !! i = Some f →
               args !! i = Some v →
               (∀ j, (i < j)%nat → ClassDef.all_fields c !! j ≠ Some f) →
               dict (zip (ClassDef.all_fields c) args) !! f = Some v)
      by (intros; by eapply dict_zip_lookup_last).
    split; [|split; [done|]].
    + intros f. rewrite dict_lookup_is_Some, fst_zip; [done|lia].
    + intros Hnodup i f v Hf Hv. apply (Hlast i); [done..|].
      intros j Hj Hf'.
      pose proof (NoDup_lookup _ _ _ _ Hnodup Hf Hf'). lia.
Qed.

Lemma new_assigns_fields_in_order_witness :
  ∃ o,
    _instantiate "B" [1; 2] (__init__ scenario_classes [])
    = (allocated (__init__ scenario_classes []) o, Returns 0%nat)
    ∧ Instance.cls o = class_B
    ∧ Instance.fields o !! "a" = Some 1
    ∧ Instance.fields o !! "b" = Some 2.
Proof.
  destruct (proj2 (proj2 (new_assigns_fields_in_order
              (__init__ scenario_classes []) "B" class_B [1; 2] eq_refl))
              eq_refl)
    as (o & Hrun & Hcls & _ & _ & Hpos).
  exists o. split; [exact Hrun|]. split; [exact Hcls|].
  assert (Hnodup : NoDup (ClassDef.all_fields class_B)).
  { apply (bool_decide_eq_true_1 _). vm_compute. reflexivity. }
  split.
  - exact (Hpos Hnodup 0%nat "a" 1 eq_refl eq_refl).
  - exact (Hpos Hnodup 1%nat "b" 2 eq_refl eq_refl).
Defined.






(** ** Field assignment *)




(** ** The view invariant *)

Lemma step_shape_refl self : step_shape self self.
Proof. split; [done|]. split; [|by left]. intros r o Hr. by exists o. Qed.

Lemma step_shape_printed self line : step_shape self (printed self line).
Proof. split; [done|]. split; [|by left]. intros r o Hr. by exists o. Qed.

Lemma step_shape_preserves self self' :
  view_invariant self → step_shape self self' → view_invariant self'.
Proof.
  intros Hinv (_ & Hstore & Henv) x b Hx.
  destruct Henv as [Henv|(v & b' & o & Henv & Ho & Hsub)]; rewrite Henv in Hx.
  - destruct (Hinv x b Hx) as (o & Ho & Hsub).
    destruct (Hstore _ _ Ho) as (o' & Ho' & Hcls).
    exists o'. by rewrite Hcls.
  - destruct (decide (v = x)) as [->|Hne].
    + rewrite lookup_insert_eq in Hx. simplify_eq. by exists o.
    + rewrite lookup_insert_ne in Hx by done.
      destruct (Hinv x b Hx) as (o0 & Ho0 & Hsub0).
      destruct (Hstore _ _ Ho0) as (o' & Ho' & Hcls).
      exists o'. by rewrite Hcls.
Qed.

Lemma ctor_args_state raw self : (ctor_args raw self).1 = self.
Proof.
  induction raw as [|tok raw IH]; [done|]. simpl.
  destruct (is_int (PyStr.strip tok)); [|done]. simpl. monad_unfold.
  destruct (ctor_args raw self) as [self' [args|e]]; by simpl in *.
Qed.

Lemma token_values_state o m tokens self : (token_values o m tokens self).1 = self.
Proof.
  induction tokens as [|tok tokens IH]; [done|]. simpl. monad_unfold.
  destruct (is_int tok).
  - destruct (token_values o m tokens self) as [self' [vs|e]]; by simpl in *.
  - destruct (Instance.fields o !! tok); [|done].
    destruct (token_values o m tokens self) as [self' [vs|e]]; by simpl in *.
Qed.

Lemma exec_let_unparsed stmt self :
  parse_let stmt = None → _exec_let stmt self = (self, Raises UnpackError).
Proof.
  unfold parse_let, _exec_let. monad_unfold. intros H.
  destruct (PyStr.split1 "let" stmt) as [[pre rest]|]; [|done]. simpl in *.
  destruct (PyStr.split1 "=" rest) as [[np ep]|]; [|done]. simpl in *.
  unfold classify_expr in H.
  destruct (PyStr.startswith "new " _).
  { by destruct (PyStr.split1 "(" _) as [[??]|]. }
  destruct (PyStr.startswith "clone " _); [done|].
  destruct (PyStr.startswith "cast<" _); [|done].
  by destruct (PyStr.split1 ">" _) as [[??]|].
Qed.

Lemma exec_let_step stmt self :
  view_invariant self → step_shape self (_exec_let stmt self).1.
Proof.
  intros Hinv.
  destruct (parse_let stmt) as [[v form]|] eqn:Hparts;
    [|rewrite exec_let_unparsed by done; apply step_shape_refl].
  destruct form as [cls_name raw|src|target src|src].
  - rewrite (exec_let_new _ _ _ _ _ Hparts). monad_unfold.
    pose proof (ctor_args_state raw self) as Hargs.
    destruct (ctor_args raw self) as [self0 [args|e]]; simpl in Hargs; subst self0;
      [|apply step_shape_refl].
    unfold _instantiate. monad_unfold.
    destruct (classes self !! cls_name) as [c|]; [|apply step_shape_refl].
    case_decide; [apply step_shape_refl|].
    unfold new_instance, deref. simpl.
    rewrite lookup_app_r, Nat.sub_diag by done. simpl.
    split; [done|]. split.
    + intros r o Hr. exists o. split; [by apply lookup_app_l_Some|done].
    + right. eexists _, _, _. split; [done|]. simpl.
      rewrite lookup_app_r, Nat.sub_diag by done.
      split; [done|]. apply is_subclass_of_refl.
  - destruct (env self !! src) as [b|] eqn:Hb.
    + destruct (Hinv _ _ Hb) as (o & Ho & Hsub).
      rewrite (exec_let_clone_ok _ _ _ _ _ _ Hparts Hb Ho). simpl.
      split; [done|]. split.
      * intros r o' Hr. exists o'. split; [by apply lookup_app_l_Some|done].
      * right. eexists _, _, _. split; [done|]. simpl.
        rewrite lookup_app_r, Nat.sub_diag by done. by split.
    + rewrite (exec_let_unbound _ _ _ _ src Hparts) by auto.
      apply step_shape_refl.
  - destruct (env self !! src) as [b|] eqn:Hb.
    + destruct (Hinv _ _ Hb) as (o & Ho & Hsub).
      rewrite (exec_let_cast _ _ _ _ _ Hparts).
      rewrite (bind_returns _ _ _ _ _ (get_binding_bound _ _ _ Hb)).
      unfold _cast_binding. monad_unfold.
      destruct (classes self !! target) as [tc|]; [|apply step_shape_refl].
      rewrite (deref_allocated _ _ _ Ho).
      destruct (ClassDef.is_subclass_of (Instance.cls o) tc) eqn:Htc; simpl;
        [|apply step_shape_refl].
      split; [done|]. split; [intros r o' Hr; by exists o'|].
      right. by exists v, {| inst := inst b; view_cls := tc |}, o.
    + rewrite (exec_let_unbound _ _ _ _ src Hparts) by eauto.
      apply step_shape_refl.
  - destruct (env self !! src) as [b|] eqn:Hb.
    + destruct (Hinv _ _ Hb) as (o & Ho & Hsub).
      rewrite (exec_let_alias_ok _ _ _ _ _ Hparts Hb). simpl.
      split; [done|]. split; [intros r o' Hr; by exists o'|].
      right. by exists v, b, o.
    + rewrite (exec_let_unbound _ _ _ _ src Hparts) by auto.
      apply step_shape_refl.
Qed.

Lemma exec_field_assign_step stmt self :
  step_shape self (_exec_field_assign stmt self).1.
Proof.
  unfold _exec_field_assign. monad_unfold.
  destruct (PyStr.split1 "=" stmt) as [[lhs rhs]|]; [|apply step_shape_refl].
  simpl. destruct (is_int (PyStr.strip rhs)); [|apply step_shape_refl]. simpl.
  destruct (PyStr.split1 "." _) as [[vn fn]|]; [|apply step_shape_refl]. simpl.
  unfold _get_binding. monad_unfold.
  destruct (env self !! PyStr.strip vn) as [b|]; [|apply step_shape_refl].
  unfold deref. destruct (store self !! inst b) as [o|] eqn:Ho;
    [|apply step_shape_refl].
  destruct (Instance.fields o !! PyStr.strip fn); [|apply step_shape_refl].
  simpl. split; [done|]. split; [|by left].
  intros r o' Hr. destruct (decide (inst b = r)) as [<-|Hne].
  - eexists. split; [apply list_lookup_insert_eq; by eapply lookup_lt_Some|].
    simpl. pose proof (eq_trans (eq_sym Ho) Hr) as Heq. by simplify_eq.
  - exists o'. split; [|done]. rewrite <- Hr. by apply list_lookup_insert_ne.
Qed.

Lemma exec_call_step stmt self : step_shape self (_exec_call stmt self).1.
Proof.
  unfold _exec_call. monad_unfold.
  destruct (PyStr.split1 "call" stmt) as [[pre rest]|]; [|apply step_shape_refl].
  simpl. destruct (PyStr.split1 "." _) as [[vp mn]|]; [|apply step_shape_refl].
  simpl. unfold _get_binding. monad_unfold.
  destruct (env self !! PyStr.strip vp) as [b|]; [|apply step_shape_refl].
  unfold deref. destruct (store self !! inst b) as [o|]; [|apply step_shape_refl].
  destruct (ClassDef.lookup_method _ _) as [tokens|]; [|apply step_shape_refl].
  pose proof (token_values_state o (PyStr.strip mn) tokens self) as Hst.
  destruct (token_values _ _ _ _) as [self0 [vs|e]]; simpl in Hst; subst self0;
    [apply step_shape_printed|apply step_shape_refl].
Qed.

Lemma exec_is_step stmt self : step_shape self (_exec_is stmt self).1.
Proof.
  unfold _exec_is. monad_unfold.
  destruct (PyStr.split1 " is " stmt) as [[vn cn]|]; [|apply step_shape_refl].
  simpl. destruct (env self !! _) as [b|]; [|apply step_shape_printed].
  destruct (classes self !! _) as [c|]; [|apply step_shape_printed].
  unfold deref. destruct (store self !! inst b) as [o|];
    [apply step_shape_printed|apply step_shape_refl].
Qed.

Lemma exec_statement_step stmt self :
  view_invariant self → step_shape self (_exec_statement stmt self).1.
Proof.
  intros Hinv. unfold _exec_statement.
  repeat case_match;
    auto using step_shape_refl, exec_let_step, exec_field_assign_step,
               exec_call_step, exec_is_step.
Qed.

Lemma exec_all_invariant stmts self :
  view_invariant self → view_invariant (exec_all stmts self).1.
Proof.
  revert self. induction stmts as [|stmt stmts IH]; intros self Hinv; [done|].
  simpl. monad_unfold.
  pose proof (step_shape_preserves _ _ Hinv (exec_statement_step stmt self Hinv))
    as Hinv'.
  destruct (_exec_statement stmt self) as [self' [[]|e]]; simpl in *; auto.
Qed.

Lemma init_invariant classes statements :
  view_invariant (__init__ classes statements).
Proof. intros x b Hx. simpl in Hx. by rewrite lookup_empty in Hx. Qed.

(** C8. After any prefix of the statements has been executed, and after
    the whole run, every binding of the environment denotes an allocated
    instance whose runtime class is a subclass of the view class of the
    binding.  Each statement keeps it so: it leaves the runtime class of
    every object as it is, and it leaves the environment as it is or
    (re)places one binding, so the view class of a binding that stays is
    never changed. *)
Theorem bindings_view_above_runtime_class classes stmts :
  (∀ n, view_invariant (exec_all (take n stmts) (__init__ classes stmts)).1)
  ∧ view_invariant (run (__init__ classes stmts)).1
  ∧ (∀ self stmt,
       view_invariant self →
       view_invariant (_exec_statement stmt self).1
       ∧ step_shape self (_exec_statement stmt self).1).
Proof.
  split; [|split].
  - intros n. apply exec_all_invariant, init_invariant.
  - unfold run. monad_unfold. simpl. apply exec_all_invariant, init_invariant.
  - intros self stmt Hinv.
    pose proof (exec_statement_step stmt self Hinv) as Hstep.
    split; [by eapply step_shape_preserves|done].
Qed.

Lemma bindings_view_above_runtime_class_witness :
  ∃ o,
    store (exec_all (take 2 ["let x = new B(1, 2)"; "let y = cast<A> x";
                             "let q = cast<B> nobody"])
             (__init__ scenario_classes
                ["let x = new B(1, 2)"; "let y = cast<A> x";
                 "let q = cast<B> nobody"])).1 !! 0%nat = Some o
    ∧ ClassDef.is_subclass_of (Instance.cls o) class_A = true.
Proof.
  refine (proj1 (bindings_view_above_runtime_class scenario_classes
                   ["let x = new B(1, 2)"; "let y = cast<A> x";
                    "let q = cast<B> nobody"])
            2%nat "y" {| inst := 0%nat; view_cls := class_A |} _).
  vm_compute. reflexivity.
Defined.

(** ** Integer literals *)

Section Literals.

Lemma digits_to_end_uint u : digits_to_end true (NilEmpty.string_of_uint u) = true.
Proof. induction u; simpl; auto. Qed.

Lemma digits_to_end_uint_nonempty u :
  u ≠ Decimal.Nil → digits_to_end false (NilEmpty.string_of_uint u) = true.
Proof. destruct u; [done|..]; intros _; simpl; apply digits_to_end_uint. Qed.

Lemma digits_value_step c s acc :
  PyStr.isdigit c = true →
  digits_value acc (String c s) = digits_value (10 * acc + PyStr.digit_val c) s.
Proof. intros H. simpl. by rewrite H. Qed.

Ltac digit_arith :=
  match goal with
  | |- context [PyStr.digit_val ?c] =>
      let k := fresh "k" in
      set (k := PyStr.digit_val c); vm_compute in k; subst k; lia
  end.

Lemma digits_value_uint_pos u p :
  digits_value (Z.pos p) (NilEmpty.string_of_uint u) = Z.pos (Pos.of_uint_acc u p).
Proof.
  revert p. induction u as [|u IH|u IH|u IH|u IH|u IH|u IH|u IH|u IH|u IH|u IH];
    intros p; [done|..];
    cbn [NilEmpty.string_of_uint Pos.of_uint_acc];
    rewrite digits_value_step by reflexivity;
    rewrite <- IH; f_equal; digit_arith.
Qed.

Lemma digits_value_uint u :
  digits_value 0 (NilEmpty.string_of_uint u) = Z.of_uint u.
Proof.
  unfold Z.of_uint.
  induction u as [|u IH|u IH|u IH|u IH|u IH|u IH|u IH|u IH|u IH|u IH];
    [done|..];
    cbn [NilEmpty.string_of_uint Pos.of_uint Z.of_N];
    rewrite digits_value_step by reflexivity.
  - rewrite <- IH. f_equal.
  - rewrite <- digits_value_uint_pos. f_equal.
  - rewrite <- digits_value_uint_pos. f_equal.
  - rewrite <- digits_value_uint_pos. f_equal.
  - rewrite <- digits_value_uint_pos. f_equal.
  - rewrite <- digits_value_uint_pos. f_equal.
  - rewrite <- digits_value_uint_pos. f_equal.
  - rewrite <- digits_value_uint_pos. f_equal.
  - rewrite <- digits_value_uint_pos. f_equal.
  - rewrite <- digits_value_uint_pos. f_equal.
Qed.

Lemma is_int_literal d : has_digits d → is_int (literal d) = true.
Proof.
  destruct d as [u|u]; simpl; intros Hu.
  - unfold is_int. pose proof (digits_to_end_uint_nonempty u Hu) as H.
    by destruct u.
  - by apply digits_to_end_uint_nonempty.
Qed.

Lemma int_literal d : has_digits d → int (literal d) = Z.of_int d.
Proof.
  destruct d as [u|u]; simpl; intros Hu.
  - unfold int. pose proof (digits_value_uint u) as H. by destruct u.
  - unfold int. by rewrite digits_value_uint.
Qed.

End Literals.

Lemma exec_let_new_ok self stmt v cls_name raw c :
  parse_let stmt = Some (v, New cls_name raw) →
  Forall (λ tok, is_int (PyStr.strip tok) = true) raw →
  classes self !! cls_name = Some c →
  length raw = length (ClassDef.all_fields c) →
  _exec_let stmt self
  = (bound (allocated self
              {| Instance.cls := c;
                 Instance.fields :=
                   dict (zip (ClassDef.all_fields c)
                             ((λ tok, int (PyStr.strip tok)) <$> raw)) |})
           v {| inst := length (store self); view_cls := c |},
     Returns tt).
Proof.
  intros Hparts Hlits Hc Hlen.
  rewrite (exec_let_new _ _ _ _ _ Hparts).
  rewrite (bind_returns _ _ _ _ _ (ctor_args_literals _ _ Hlits)).
  erewrite bind_returns; [|apply (instantiate_ok _ _ c); [done|]].
  - monad_unfold. unfold deref. simpl.
    by rewrite lookup_app_r, Nat.sub_diag.
  - by rewrite length_fmap.
Qed.

(** ** The conversion limit *)

Section ConversionLimit.

Import PyStr.





Lemma str_literal z :
  has_digits (Z.to_int z) ∧ str z = literal (Z.to_int z).
Proof.
  unfold str. destruct z as [|p|p]; simpl.
  - split; [discriminate|done].
  - pose proof (DecimalPos.Unsigned.to_uint_nonnil p) as Hp.
    split; [done|]. unfold NilZero.string_of_uint.
    by destruct (Pos.to_uint p).
  - pose proof (DecimalPos.Unsigned.to_uint_nonnil p) as Hp.
    split; [done|]. unfold NilZero.string_of_uint.
    by destruct (Pos.to_uint p).
Qed.










(** A method under the limit does what the method does, unless it
    raises on a conversion; it has changed nothing then. *)
Lemma limited_convert_cases tok self :
  Limited.convert tok self = (self, Returns (int tok))
  ∨ Limited.convert tok self = (self, Raises ExceedsDigitLimit).
Proof.
  unfold Limited.convert, int_limited.
  destruct (count_digits tok <=? int_max_str_digits)%nat; [by left|by right].
Qed.

Lemma limited_ctor_args_cases raw self :
  Limited.ctor_args raw self = ctor_args raw self
  ∨ Limited.ctor_args raw self = (self, Raises ExceedsDigitLimit).
Proof.
  induction raw as [|tok raw IH]; [by left|].
  cbn [Limited.ctor_args ctor_args].
  destruct (is_int (strip tok)); cbn [negb]; [|by left].
  destruct (limited_convert_cases (strip tok) self) as [Hc|Hc].
  - rewrite (bind_returns _ _ _ _ _ Hc).
    destruct IH as [IH|IH].
    + left. monad_unfold. by rewrite IH.
    + right. by rewrite (bind_raises _ _ _ _ _ IH).
  - right. by rewrite (bind_raises _ _ _ _ _ Hc).
Qed.

Lemma limited_token_values_cases o m toks self :
  Limited.token_values o m toks self = token_values o m toks self
  ∨ Limited.token_values o m toks self = (self, Raises ExceedsDigitLimit).
Proof.
  induction toks as [|tok toks IH]; [by left|].
  cbn [Limited.token_values token_values].
  destruct (is_int tok).
  - destruct (limited_convert_cases tok self) as [Hc|Hc].
    + rewrite (bind_returns _ _ _ _ _ Hc).
      destruct IH as [IH|IH].
      * left. monad_unfold. by rewrite IH.
      * right. by rewrite (bind_raises _ _ _ _ _ IH).
    + right. by rewrite (bind_raises _ _ _ _ _ Hc).
  - destruct (Instance.fields o !! tok) as [v|]; [|by left].
    destruct IH as [IH|IH].
    + left. monad_unfold. by rewrite IH.
    + right. monad_unfold. by rewrite IH.
Qed.

Lemma limited_texts_cases values self :
  Limited.texts values self = (self, Returns (str <$> values))
  ∨ Limited.texts values self = (self, Raises ExceedsDigitLimit).
Proof.
  induction values as [|v values IH]; [by left|].
  cbn [Limited.texts]. unfold str_limited.
  destruct (count_digits (str v) <=? int_max_str_digits)%nat; [|by right].
  destruct IH as [IH|IH].
  - left. by rewrite (bind_returns _ _ _ _ _ IH).
  - right. by rewrite (bind_raises _ _ _ _ _ IH).
Qed.

Lemma limited_exec_let_cases stmt self :
  Limited._exec_let stmt self = _exec_let stmt self
  ∨ Limited._exec_let stmt self = (self, Raises ExceedsDigitLimit).
Proof.
  unfold Limited._exec_let, _exec_let. monad_unfold.
  destruct (split1 "let" stmt) as [[pre rest]|]; [|by left]. simpl.
  destruct (split1 "=" rest) as [[np ep]|]; [|by left]. simpl.
  destruct (startswith "new " (strip ep)); [|by left].
  destruct (split1 "(" _) as [[cn args_str]|]; [|by left]. simpl.
  destruct (is_empty _); [by left|].
  destruct (limited_ctor_args_cases
              (split_all ","
                 match rsplit1 ")" args_str with
                 | Some (a, _) => a
                 | None => args_str
                 end) self) as [Hc|Hc]; rewrite Hc; [by left|by right].
Qed.

Lemma limited_exec_field_assign_cases stmt self :
  Limited._exec_field_assign stmt self = _exec_field_assign stmt self
  ∨ Limited._exec_field_assign stmt self = (self, Raises ExceedsDigitLimit).
Proof.
  unfold Limited._exec_field_assign, _exec_field_assign. monad_unfold.
  destruct (split1 "=" stmt) as [[lhs rhs]|]; [|by left]. simpl.
  destruct (is_int (strip rhs)); [|by left]. simpl.
  destruct (limited_convert_cases (strip rhs) self) as [Hc|Hc]; rewrite Hc;
    [by left|by right].
Qed.

Lemma limited_exec_call_cases stmt self :
  Limited._exec_call stmt self = _exec_call stmt self
  ∨ Limited._exec_call stmt self = (self, Raises ExceedsDigitLimit).
Proof.
  unfold Limited._exec_call, _exec_call. monad_unfold.
  destruct (split1 "call" stmt) as [[pre rest]|]; [|by left]. simpl.
  destruct (split1 "." _) as [[vp mn]|]; [|by left]. simpl.
  destruct (_get_binding (strip vp) self) as [self1 [b|e]] eqn:Hb; [|by left].
  assert (self1 = self) as ->.
  { unfold _get_binding, mbind, M_bind, bind, get_self, ret, raise in Hb.
    destruct (env self !! strip vp); by simplify_eq. }
  destruct (deref (inst b) self) as [self1 [o|e]] eqn:Ho; [|by left].
  assert (self1 = self) as ->.
  { unfold deref in Ho. destruct (store self !! inst b); by simplify_eq. }
  destruct (ClassDef.lookup_method _ _) as [tokens|]; [|by left].
  pose proof (token_values_state o (strip mn) tokens self) as Hst.
  destruct (limited_token_values_cases o (strip mn) tokens self) as [Hc|Hc];
    rewrite Hc; [|by right].
  destruct (token_values o (strip mn) tokens self) as [self1 [values|e]];
    simpl in Hst; subst self1; [|by left].
  destruct (limited_texts_cases values self) as [Ht|Ht]; rewrite Ht;
    [by left|by right].
Qed.

Lemma limited_exec_statement_cases stmt self :
  Limited._exec_statement stmt self = _exec_statement stmt self
  ∨ Limited._exec_statement stmt self = (self, Raises ExceedsDigitLimit).
Proof.
  unfold Limited._exec_statement, _exec_statement.
  destruct (is_empty _); [by left|].
  destruct (startswith "let " _); [apply limited_exec_let_cases|].
  destruct (_ && _); [apply limited_exec_field_assign_cases|].
  destruct (startswith "call " _); [apply limited_exec_call_cases|].
  by left.
Qed.

Lemma limited_exec_all_cases stmts self :
  Limited.exec_all stmts self = exec_all stmts self
  ∨ ∃ done stmt rest self',
      stmts = done ++ stmt :: rest
      ∧ exec_all done self = (self', Returns tt)
      ∧ Limited.exec_all done self = (self', Returns tt)
      ∧ Limited._exec_statement stmt self' = (self', Raises ExceedsDigitLimit)
      ∧ Limited.exec_all stmts self = (self', Raises ExceedsDigitLimit).
Proof.
  revert self. induction stmts as [|stmt stmts IH]; intros self; [by left|].
  cbn [Limited.exec_all exec_all].
  destruct (limited_exec_statement_cases stmt self) as [Hs|Hs].
  - destruct (_exec_statement stmt self) as [self1 [[]|e]] eqn:Hplain.
    + rewrite (bind_returns _ _ _ _ _ Hs), (bind_returns _ _ _ _ _ Hplain).
      destruct (IH self1) as [Hall|(done & st & rest & self' & -> & Hd & Hl & Hst & Hr)];
        [by left|].
      right. exists (stmt :: done), st, rest, self'.
      split; [done|]. cbn [Limited.exec_all exec_all].
      rewrite (bind_returns _ _ _ _ _ Hs), (bind_returns _ _ _ _ _ Hplain).
      done.
    + left. by rewrite (bind_raises _ _ _ _ _ Hs), (bind_raises _ _ _ _ _ Hplain).
  - right. exists [], stmt, stmts, self.
    split; [done|]. do 3 (split; [done|]).
    by rewrite (bind_raises _ _ _ _ _ Hs).
Qed.

End ConversionLimit.

(** X21. The conversion limit only adds failures.  A statement run under
    the limit does exactly what the statement does without it, or it
    raises on a conversion and has changed nothing; the statements of a
    program do under the limit what they do without it, up to the first
    statement that raises on a conversion. *)
Theorem conversion_limit_only_adds_failures stmts self :
  (∀ stmt,
     Limited._exec_statement stmt self = _exec_statement stmt self
     ∨ Limited._exec_statement stmt self = (self, Raises ExceedsDigitLimit))
  ∧ (Limited.exec_all stmts self = exec_all stmts self
     ∨ ∃ done stmt rest self',
         stmts = done ++ stmt :: rest
         ∧ exec_all done self = (self', Returns tt)
         ∧ Limited.exec_all done self = (self', Returns tt)
         ∧ Limited._exec_statement stmt self' = (self', Raises ExceedsDigitLimit)
         ∧ Limited.exec_all stmts self = (self', Raises ExceedsDigitLimit)).
Proof.
  split; [intros stmt; apply limited_exec_statement_cases|].
  apply limited_exec_all_cases.
Qed.




(** * Further properties of the interpreter *)

(** ** What a statement can do *)

Lemma instantiate_outcome cls_name args self :
  (∃ e, _instantiate cls_name args self = (self, Raises e))
  ∨ (∃ c, classes self !! cls_name = Some c
          ∧ length args = length (ClassDef.all_fields c)
          ∧ _instantiate cls_name args self
            = (allocated self
                 {| Instance.cls := c;
                    Instance.fields := dict (zip (ClassDef.all_fields c) args) |},
               Returns (length (store self)))).
Proof.
  destruct (classes self !! cls_name) as [c|] eqn:Hc.
  - destruct (decide (length args = length (ClassDef.all_fields c))) as [Hlen|Hlen].
    + right. exists c. by rewrite (instantiate_ok _ _ _ _ Hc Hlen).
    + left. eexists. by apply (instantiate_arity_mismatch _ _ c).
  - left. eexists. unfold _instantiate. monad_unfold. by rewrite Hc.
Qed.

(** The outcomes of [_exec_let]: it raises and nothing has changed, or it
    binds its variable to the object of another binding, or it binds its
    variable to an object it has just allocated. *)
Lemma exec_let_outcome stmt self :
  (∃ e, _exec_let stmt self = (self, Raises e))
  ∨ (∃ v form src b view,
       parse_let stmt = Some (v, form)
       ∧ env self !! src = Some b
       ∧ _exec_let stmt self
         = (bound self v {| inst := inst b; view_cls := view |}, Returns tt))
  ∨ (∃ v form o view,
       parse_let stmt = Some (v, form)
       ∧ _exec_let stmt self
         = (bound (allocated self o) v
                  {| inst := length (store self); view_cls := view |},
            Returns tt)
       ∧ ((∃ c args,
             length args = length (ClassDef.all_fields c)
             ∧ o = {| Instance.cls := c;
                      Instance.fields := dict (zip (ClassDef.all_fields c) args) |})
          ∨ (∃ r o0,
               store self !! r = Some o0
               ∧ o = {| Instance.cls := Instance.cls o0;
                        Instance.fields := Instance.fields o0 |}))).
Proof.
  destruct (parse_let stmt) as [[v form]|] eqn:Hparts;
    [|left; eexists; by apply exec_let_unparsed].
  destruct form as [cls_name raw|src|target src|src].
  - rewrite (exec_let_new _ _ _ _ _ Hparts). monad_unfold.
    pose proof (ctor_args_state raw self) as Hargs.
    destruct (ctor_args raw self) as [self0 [args|e]]; simpl in Hargs; subst self0;
      [|left; by eexists].
    destruct (instantiate_outcome cls_name args self)
      as [[e ->]|(c & Hc & Hlen & ->)]; [left; by eexists|].
    right; right. unfold deref. simpl.
    rewrite lookup_app_r, Nat.sub_diag by done. simpl.
    eexists v, _, _, _. split; [done|]. split; [done|].
    left. by exists c, args.
  - destruct (env self !! src) as [b|] eqn:Hb.
    + rewrite (exec_let_clone _ _ _ _ Hparts).
      rewrite (bind_returns _ _ _ _ _ (get_binding_bound _ _ _ Hb)).
      unfold _clone, deref. monad_unfold.
      destruct (store self !! inst b) as [o|] eqn:Ho; [|left; by eexists].
      right; right. eexists v, _, _, _. split; [done|]. split; [done|].
      right. by exists (inst b), o.
    + left. eexists. apply (exec_let_unbound _ _ _ _ src Hparts); auto.
  - destruct (env self !! src) as [b|] eqn:Hb.
    + rewrite (exec_let_cast _ _ _ _ _ Hparts).
      rewrite (bind_returns _ _ _ _ _ (get_binding_bound _ _ _ Hb)).
      unfold _cast_binding, deref. monad_unfold.
      destruct (classes self !! target) as [tc|]; [|left; by eexists].
      destruct (store self !! inst b) as [o|] eqn:Ho; [|left; by eexists].
      destruct (ClassDef.is_subclass_of (Instance.cls o) tc); simpl;
        [|left; by eexists].
      right; left. by exists v, (Cast target src), src, b, tc.
    + left. eexists. apply (exec_let_unbound _ _ _ _ src Hparts); eauto.
  - destruct (env self !! src) as [b|] eqn:Hb.
    + rewrite (exec_let_alias _ _ _ _ Hparts).
      rewrite (bind_returns _ _ _ _ _ (get_binding_bound _ _ _ Hb)).
      right; left. by exists v, (Alias src), src, b, (view_cls b).
    + left. eexists. apply (exec_let_unbound _ _ _ _ src Hparts); auto.
Qed.

(** The outcomes of [_exec_field_assign]: it raises and nothing has
    changed, or it has replaced the value of one existing field of the
    object of a binding. *)
Lemma exec_field_assign_outcome stmt self :
  (∃ e, _exec_field_assign stmt self = (self, Raises e))
  ∨ (∃ x f rhs b o old,
       parse_assign stmt = Some (x, f, rhs)
       ∧ env self !! x = Some b
       ∧ store self !! inst b = Some o
       ∧ Instance.fields o !! f = Some old
       ∧ _exec_field_assign stmt self
         = (updated self (inst b)
              {| Instance.cls := Instance.cls o;
                 Instance.fields := <[f := int rhs]> (Instance.fields o) |},
            Returns tt)).
Proof.
  destruct (parse_assign stmt) as [[[x f] rhs]|] eqn:Hparts.
  - rewrite (exec_field_assign_parts _ _ _ _ _ Hparts).
    destruct (is_int rhs) eqn:Hint; simpl; [|left; by eexists].
    unfold _get_binding, deref. monad_unfold.
    destruct (env self !! x) as [b|] eqn:Hb; [|left; by eexists].
    destruct (store self !! inst b) as [o|] eqn:Ho; [|left; by eexists].
    destruct (Instance.fields o !! f) as [old|] eqn:Hf; [|left; by eexists].
    right. by exists x, f, rhs, b, o, old.
  - left. unfold parse_assign in Hparts. unfold _exec_field_assign. monad_unfold.
    destruct (PyStr.split1 "=" stmt) as [[lhs rhs]|]; [|by eexists].
    simpl in *. destruct (is_int (PyStr.strip rhs)); [|by eexists]. simpl.
    destruct (PyStr.split1 "." _) as [[vn fn]|]; [done|by eexists].
Qed.

(** The outcomes of [_exec_call] and [_exec_is]: they raise and nothing
    has changed, or they have printed one line and changed nothing else. *)
Lemma exec_call_outcome stmt self :
  (∃ e, _exec_call stmt self = (self, Raises e))
  ∨ (∃ line, _exec_call stmt self = (printed self line, Returns tt)).
Proof.
  unfold _exec_call. monad_unfold.
  destruct (PyStr.split1 "call" stmt) as [[pre rest]|]; [|left; by eexists].
  simpl. destruct (PyStr.split1 "." _) as [[vp mn]|]; [|left; by eexists].
  simpl. unfold _get_binding, deref. monad_unfold.
  destruct (env self !! PyStr.strip vp) as [b|]; [|left; by eexists].
  destruct (store self !! inst b) as [o|]; [|left; by eexists].
  destruct (ClassDef.lookup_method _ _) as [tokens|]; [|left; by eexists].
  pose proof (token_values_state o (PyStr.strip mn) tokens self) as Hst.
  destruct (token_values _ _ _ _) as [self0 [vs|e]]; simpl in Hst; subst self0;
    [right|left]; by eexists.
Qed.

Lemma exec_is_outcome stmt self :
  (∃ e, _exec_is stmt self = (self, Raises e))
  ∨ (∃ line, _exec_is stmt self = (printed self line, Returns tt)).
Proof.
  unfold _exec_is. monad_unfold.
  destruct (PyStr.split1 " is " stmt) as [[vn cn]|]; [|left; by eexists].
  simpl. destruct (env self !! _) as [b|]; [|right; by eexists].
  destruct (classes self !! _) as [c|]; [|right; by eexists].
  unfold deref. destruct (store self !! inst b) as [o|];
    [right|left]; by eexists.
Qed.

Lemma exec_statement_raises stmt self self' e :
  _exec_statement stmt self = (self', Raises e) → self' = self.
Proof.
  unfold _exec_statement.
  set (s := PyStr.strip _). clearbody s.
  destruct (PyStr.is_empty s); [done|].
  destruct (PyStr.startswith "let " s).
  { destruct (exec_let_outcome s self)
      as [[e' ->]|[(v & form & src & b & view & _ & _ & ->)
                  |(v & form & o & view & _ & -> & _)]]; congruence. }
  destruct (PyStr.contains "." s && PyStr.contains "=" s
            && negb (PyStr.startswith "call " s)).
  { destruct (exec_field_assign_outcome s self)
      as [[e' ->]|(x & f & rhs & b & o & old & _ & _ & _ & _ & ->)]; congruence. }
  destruct (PyStr.startswith "call " s).
  { destruct (exec_call_outcome s self) as [[e' ->]|[line ->]]; congruence. }
  destruct (PyStr.contains " is " s).
  { destruct (exec_is_outcome s self) as [[e' ->]|[line ->]]; congruence. }
  unfold raise. congruence.
Qed.

(** X1. A statement that raises has changed nothing: the interpreter is
    the one before the statement (environment, objects and output). *)
Theorem failing_statement_changes_nothing stmt self e :
  (_exec_statement stmt self).2 = Raises e →
  (_exec_statement stmt self).1 = self.
Proof.
  destruct (_exec_statement stmt self) as [self' r] eqn:Hrun. simpl.
  intros ->. by apply (exec_statement_raises stmt self self' e).
Qed.

Lemma failing_statement_changes_nothing_witness :
  (_exec_statement "x.c = 4" scenario).1 = scenario.
Proof.
  refine (failing_statement_changes_nothing "x.c = 4" scenario
            (UnknownField "c" "B") _).
  vm_compute. reflexivity.
Defined.

Lemma exec_all_app done rest self :
  exec_all (done ++ rest) self = (_ ← exec_all done; exec_all rest) self.
Proof.
  revert self. induction done as [|stmt done IH]; intros self; [done|].
  simpl. monad_unfold.
  destruct (_exec_statement stmt self) as [self' [[]|e]]; [|done].
  apply IH.
Qed.

(** X2. [run] executes the statements in order and stops at the first
    one that raises: when [run] raises, the statements before the failing
    one have all returned, the interpreter is the one they have produced,
    and the exception is the one of the failing statement; no later
    statement has had any effect. *)
Theorem run_stops_at_first_failure self self' e :
  run self = (self', Raises e) →
  ∃ done stmt rest,
    statements self = done ++ stmt :: rest
    ∧ exec_all done self = (self', Returns tt)
    ∧ _exec_statement stmt self' = (self', Raises e).
Proof.
  unfold run. monad_unfold. simpl.
  generalize (statements self) as stmts. intros stmts. revert self.
  induction stmts as [|stmt stmts IH]; intros self Hrun; [done|].
  simpl in Hrun. unfold mbind, M_bind, bind in Hrun.
  destruct (_exec_statement stmt self) as [self1 [[]|e1]] eqn:Hstmt.
  - destruct (IH self1 Hrun) as (done & stmt' & rest & -> & Hdone & Hfail).
    exists (stmt :: done), stmt', rest. split; [done|]. split; [|done].
    simpl. monad_unfold. by rewrite Hstmt.
  - simplify_eq. exists [], stmt, stmts. split; [done|].
    pose proof (exec_statement_raises _ _ _ _ Hstmt) as ->. by split.
Qed.

Lemma run_stops_at_first_failure_witness :
  ∃ done stmt rest,
    ["let x = new B(1, 2)"; "call x.hide"; "call x.show"]
    = done ++ stmt :: rest
    ∧ exec_all done
        (__init__ scenario_classes
           ["let x = new B(1, 2)"; "call x.hide"; "call x.show"])
      = ((exec_all ["let x = new B(1, 2)"]
            (__init__ scenario_classes
               ["let x = new B(1, 2)"; "call x.hide"; "call x.show"])).1,
         Returns tt)
    ∧ _exec_statement stmt
        (exec_all ["let x = new B(1, 2)"]
           (__init__ scenario_classes
              ["let x = new B(1, 2)"; "call x.hide"; "call x.show"])).1
      = ((exec_all ["let x = new B(1, 2)"]
            (__init__ scenario_classes
               ["let x = new B(1, 2)"; "call x.hide"; "call x.show"])).1,
         Raises (MethodNotFound "hide" "B")).
Proof.
  refine (run_stops_at_first_failure
            (__init__ scenario_classes
               ["let x = new B(1, 2)"; "call x.hide"; "call x.show"])
            _ (MethodNotFound "hide" "B") _).
  vm_compute. reflexivity.
Defined.

Lemma exec_statement_output stmt self :
  (∃ line, (_exec_statement stmt self).1 = printed self line)
  ∨ stdout (_exec_statement stmt self).1 = stdout self.
Proof.
  unfold _exec_statement.
  set (s := PyStr.strip _). clearbody s.
  destruct (PyStr.is_empty s); [by right|].
  destruct (PyStr.startswith "let " s).
  { right. destruct (exec_let_outcome s self)
      as [[e' ->]|[(v & form & src & b & view & _ & _ & ->)
                  |(v & form & o & view & _ & -> & _)]]; done. }
  destruct (PyStr.contains "." s && PyStr.contains "=" s
            && negb (PyStr.startswith "call " s)).
  { right. destruct (exec_field_assign_outcome s self)
      as [[e' ->]|(x & f & rhs & b & o & old & _ & _ & _ & _ & ->)]; done. }
  destruct (PyStr.startswith "call " s).
  { destruct (exec_call_outcome s self) as [[e' ->]|[line ->]];
      [by right|left; by eexists]. }
  destruct (PyStr.contains " is " s).
  { destruct (exec_is_outcome s self) as [[e' ->]|[line ->]];
      [by right|left; by eexists]. }
  by right.
Qed.

(** X3. A statement prints at most one line, and a statement that prints
    changes nothing else (environment and objects stay as they are); the
    output of a run only grows: what was printed before stays a prefix,
    and at most one line per statement is added. *)
Theorem statements_print_at_most_one_line stmts self :
  (∀ stmt,
     (∃ line, (_exec_statement stmt self).1 = printed self line)
     ∨ stdout (_exec_statement stmt self).1 = stdout self)
  ∧ stdout self `prefix_of` stdout (exec_all stmts self).1
  ∧ (length (stdout (exec_all stmts self).1)
     ≤ length (stdout self) + length stmts)%nat.
Proof.
  split; [intros stmt; apply exec_statement_output|].
  revert self. induction stmts as [|stmt stmts IH]; intros self.
  { simpl. split; [done|lia]. }
  simpl. monad_unfold.
  pose proof (exec_statement_output stmt self) as Hout.
  destruct (_exec_statement stmt self) as [self1 [[]|e]]; simpl in *.
  - destruct (IH self1) as [Hpre Hlen].
    destruct Hout as [[line ->]|Hsame].
    + simpl in *. split.
      * etrans; [|exact Hpre]. by apply prefix_app_r.
      * rewrite length_app in Hlen. simpl in Hlen. lia.
    + rewrite Hsame in Hpre, Hlen. split; [done|lia].
  - destruct Hout as [[line ->]|Hsame].
    + simpl. split; [by apply prefix_app_r|]. rewrite length_app. simpl. lia.
    + rewrite Hsame. split; [done|lia].
Qed.

(** X4. A [let] that returns has (re)bound the variable it names and no
    other one, has printed nothing, and has left every object that
    existed as it was: the object a rebound variable denoted before is
    still there for the other bindings on it. *)
Theorem let_rebinds_only_its_variable stmt self self' :
  _exec_let stmt self = (self', Returns tt) →
  ∃ v form b',
    parse_let stmt = Some (v, form)
    ∧ env self' = <[v := b']> (env self)
    ∧ (∀ x, x ≠ v → env self' !! x = env self !! x)
    ∧ (∀ r o, store self !! r = Some o → store self' !! r = Some o)
    ∧ stdout self' = stdout self
    ∧ classes self' = classes self.
Proof.
  intros Hrun.
  destruct (exec_let_outcome stmt self)
    as [[e' He]|[(v & form & src & b & view & Hparts & _ & Heq)
                |(v & form & o & view & Hparts & Heq & _)]];
    rewrite Hrun in *; simplify_eq.
  - eexists v, form, _. split; [done|]. simpl. split; [done|].
    split; [intros x Hx; by rewrite lookup_insert_ne|]. by split.
  - eexists v, form, _. split; [done|]. simpl. split; [done|].
    split; [intros x Hx; by rewrite lookup_insert_ne|].
    split; [intros r o' Hr; by apply lookup_app_l_Some|done].
Qed.

Lemma let_rebinds_only_its_variable_witness :
  ∃ v form b',
    parse_let "let x = clone y" = Some (v, form)
    ∧ env (_exec_let "let x = clone y" scenario).1 = <[v := b']> (env scenario)
    ∧ (∀ x, x ≠ v →
         env (_exec_let "let x = clone y" scenario).1 !! x = env scenario !! x)
    ∧ (∀ r o, store scenario !! r = Some o →
         store (_exec_let "let x = clone y" scenario).1 !! r = Some o)
    ∧ stdout (_exec_let "let x = clone y" scenario).1 = stdout scenario
    ∧ classes (_exec_let "let x = clone y" scenario).1 = classes scenario.
Proof.
  refine (let_rebinds_only_its_variable "let x = clone y" scenario _ _).
  vm_compute. reflexivity.
Defined.

(** X5. The object that [new] or [clone] binds is a new one: it did not
    exist before the statement and no binding that existed denotes it, so
    nothing but the variable of the [let] gives access to it. *)
Theorem new_and_clone_objects_are_fresh stmt self self' v form :
  view_invariant self →
  parse_let stmt = Some (v, form) →
  (∃ cls_name raw, form = New cls_name raw) ∨ (∃ src, form = Clone src) →
  _exec_let stmt self = (self', Returns tt) →
  ∃ b' o,
    env self' !! v = Some b'
    ∧ store self' !! inst b' = Some o
    ∧ store self !! inst b' = None
    ∧ (∀ x b, env self !! x = Some b → inst b ≠ inst b')
    ∧ (∀ x b, x ≠ v → env self' !! x = Some b → inst b ≠ inst b').
Proof.
  intros Hinv Hparts Hform Hrun.
  assert (Hfresh : ∀ x b, env self !! x = Some b → inst b ≠ length (store self)).
  { intros x b Hb. destruct (Hinv x b Hb) as (o & Ho & _).
    apply lookup_lt_Some in Ho. lia. }
  assert (Hshape : ∃ o view,
             self' = bound (allocated self o) v
                       {| inst := length (store self); view_cls := view |}).
  { destruct Hform as [(cls_name & raw & ->)|(src & ->)].
    - rewrite (exec_let_new _ _ _ _ _ Hparts) in Hrun.
      unfold mbind, M_bind, bind in Hrun.
      pose proof (ctor_args_state raw self) as Hargs.
      destruct (ctor_args raw self) as [self0 [args|e]]; simpl in Hargs;
        subst self0; [|done].
      destruct (instantiate_outcome cls_name args self)
        as [[e He]|(c & Hc & Hlen & He)]; rewrite He in Hrun; [done|].
      unfold deref in Hrun. simpl in Hrun.
      rewrite lookup_app_r, Nat.sub_diag in Hrun by done. simpl in Hrun.
      unfold set_var in Hrun. simplify_eq. by eexists _, _.
    - rewrite (exec_let_clone _ _ _ _ Hparts) in Hrun.
      unfold mbind, M_bind, bind, _get_binding, _clone, deref, get_self in Hrun.
      unfold mbind, M_bind, bind in Hrun.
      destruct (env self !! src) as [b|]; [|done]. simpl in Hrun.
      destruct (store self !! inst b) as [o|]; [|done]. simpl in Hrun.
      unfold set_var in Hrun. simplify_eq. by eexists _, _. }
  destruct Hshape as (o & view & ->). simpl.
  eexists _, o. split; [by rewrite lookup_insert_eq|]. simpl.
  split; [by rewrite lookup_app_r, Nat.sub_diag|].
  split; [by apply lookup_ge_None|].
  split; [exact Hfresh|].
  intros x b Hx Hb. rewrite lookup_insert_ne in Hb by done. by eapply Hfresh.
Qed.

Lemma new_and_clone_objects_are_fresh_witness :
  ∃ b' o,
    env (_exec_let "let z = clone y" scenario).1 !! "z" = Some b'
    ∧ store (_exec_let "let z = clone y" scenario).1 !! inst b' = Some o
    ∧ store scenario !! inst b' = None
    ∧ (∀ x b, env scenario !! x = Some b → inst b ≠ inst b')
    ∧ (∀ x b, x ≠ "z" →
         env (_exec_let "let z = clone y" scenario).1 !! x = Some b →
         inst b ≠ inst b').
Proof.
  refine (new_and_clone_objects_are_fresh "let z = clone y" scenario _
            "z" (Clone "y") _ eq_refl _ _).
  - apply exec_all_invariant, init_invariant.
  - right. by exists "y".
  - vm_compute. reflexivity.
Defined.

(** ** The fields of an object *)








(** ** The class chain *)

Lemma chain_suffix c k :
  k ∈ chain c → ∃ skipped, chain c = skipped ++ chain k.
Proof.
  induction c as [o n bn fs ms|o n bn fs ms b IH] using ClassDef.chain_ind;
    simpl; intros Hk.
  - apply list_elem_of_singleton in Hk as ->. by exists [].
  - apply elem_of_cons in Hk as [->|Hk]; [by exists []|].
    destruct (IH Hk) as [skipped ->].
    by exists (ClassDef.mk o n bn fs ms (Some b) :: skipped).
Qed.

(** X7. Field layout is inherited as a prefix: for every class [k] on the
    chain of [c] (the class itself or an ancestor), [all_fields k] is a
    prefix of [all_fields c], so the constructor arguments of the ancestor
    are the leading constructor arguments of the descendant. *)
Theorem all_fields_of_ancestor_is_prefix c k :
  k ∈ chain c →
  ClassDef.all_fields k `prefix_of` ClassDef.all_fields c
  ∧ (length (ClassDef.all_fields k) ≤ length (ClassDef.all_fields c))%nat.
Proof.
  intros Hk.
  assert (Hpre : ClassDef.all_fields k `prefix_of` ClassDef.all_fields c).
  { induction c as [o n bn fs ms|o n bn fs ms b IH] using ClassDef.chain_ind;
      simpl in Hk.
    - by apply list_elem_of_singleton in Hk as ->.
    - apply elem_of_cons in Hk as [->|Hk]; [done|].
      simpl. etrans; [by apply IH|]. by apply prefix_app_r. }
  split; [done|]. by apply prefix_length.
Qed.

Lemma all_fields_of_ancestor_is_prefix_witness :
  ClassDef.all_fields class_A `prefix_of` ClassDef.all_fields class_B
  ∧ (length (ClassDef.all_fields class_A)
     ≤ length (ClassDef.all_fields class_B))%nat.
Proof.
  refine (all_fields_of_ancestor_is_prefix class_B class_A _).
  apply list_elem_of_further, list_elem_of_here.
Defined.

Lemma lookup_method_skip c k m skipped :
  chain c = skipped ++ chain k →
  Forall (λ k', ClassDef.methods k' !! m = None) skipped →
  ClassDef.lookup_method c m = ClassDef.lookup_method k m.
Proof.
  revert c. induction skipped as [|s0 skipped IH]; intros c Hchain Hskip.
  - simpl in Hchain. destruct c as [o n bn fs ms b], k as [o' n' bn' fs' ms' b'].
    simpl in Hchain. injection Hchain as Heq _. by simplify_eq.
  - inversion_clear Hskip as [|? ? Hhd Htl].
    destruct c as [o n bn fs ms [b|]]; simpl in Hchain.
    + injection Hchain as <- Hchain. simpl in *. rewrite Hhd. by apply IH.
    + injection Hchain as _ Hchain. destruct skipped, k; discriminate.
Qed.

(** X8. Methods are inherited along the chain: a method that can be
    called through an ancestor view can be called through the class
    itself, and the two calls run the same body unless a class of the
    chain below the ancestor declares the method again. *)
Theorem base_methods_are_inherited c k m :
  k ∈ chain c →
  (is_Some (ClassDef.lookup_method k m) → is_Some (ClassDef.lookup_method c m))
  ∧ ∃ skipped,
      chain c = skipped ++ chain k
      ∧ (Forall (λ k', ClassDef.methods k' !! m = None) skipped →
         ClassDef.lookup_method c m = ClassDef.lookup_method k m).
Proof.
  intros Hk. destruct (chain_suffix c k Hk) as [skipped Hchain]. split.
  - clear Hk. revert c Hchain.
    induction skipped as [|s0 skipped IH]; intros c Hchain Hsome.
    + by rewrite (lookup_method_skip c k m [] Hchain).
    + destruct c as [o n bn fs ms [b|]]; simpl in Hchain.
      * injection Hchain as <- Hchain. simpl.
        destruct (ms !! m); [by eexists|]. by apply IH.
      * injection Hchain as _ Hchain. destruct skipped, k; discriminate.
  - exists skipped. split; [done|]. by apply lookup_method_skip.
Qed.

Lemma base_methods_are_inherited_witness :
  (is_Some (ClassDef.lookup_method class_A "show") →
   is_Some (ClassDef.lookup_method class_B "show"))
  ∧ ∃ skipped,
      chain class_B = skipped ++ chain class_A
      ∧ (Forall (λ k', ClassDef.methods k' !! "show" = None) skipped →
         ClassDef.lookup_method class_B "show"
         = ClassDef.lookup_method class_A "show").
Proof.
  refine (base_methods_are_inherited class_B class_A "show" _).
  apply list_elem_of_further, list_elem_of_here.
Defined.

(** X9. [is_subclass_of] is reflexive, holds from a class to every class
    of its chain, and is transitive when the class in the middle is the
    object found on the chain (no other object carries its identity). *)
Theorem is_subclass_of_preorder a :
  ClassDef.is_subclass_of a a = true
  ∧ (∀ k, k ∈ chain a → ClassDef.is_subclass_of a k = true)
  ∧ (∀ b c,
       ClassDef.is_subclass_of a b = true →
       ClassDef.is_subclass_of b c = true →
       (∀ k, k ∈ chain a → ClassDef.oid k = ClassDef.oid b → k = b) →
       ClassDef.is_subclass_of a c = true).
Proof.
  split; [apply is_subclass_of_refl|]. split.
  - intros k Hk. apply is_subclass_of_chain. by exists k.
  - intros b c Hab Hbc Hid.
    apply is_subclass_of_chain in Hab as (k & Hk & Hoid).
    pose proof (Hid k Hk Hoid) as ->.
    apply is_subclass_of_chain in Hbc as (k' & Hk' & Hoid').
    apply is_subclass_of_chain. exists k'. split; [|done].
    destruct (chain_suffix a b Hk) as [skipped ->].
    apply elem_of_app. by right.
Qed.

Lemma is_subclass_of_preorder_witness :
  ClassDef.is_subclass_of class_B class_A = true.
Proof.
  refine (proj2 (proj2 (is_subclass_of_preorder class_B)) class_A class_A
            eq_refl eq_refl _).
  intros k Hk Hoid.
  apply elem_of_cons in Hk as [->|Hk]; [discriminate Hoid|].
  by apply list_elem_of_singleton in Hk.
Defined.

(** X10. A cast looks at the runtime class of the instance only: the
    view class of the source binding plays no part, so two bindings on one
    instance are cast alike, and a binding that views an object through an
    ancestor can be cast back to the runtime class of the object. *)
Theorem cast_ignores_current_view self b1 b2 target :
  inst b1 = inst b2 →
  _cast_binding b1 target self = _cast_binding b2 target self
  ∧ (∀ tc o,
       classes self !! target = Some tc →
       store self !! inst b1 = Some o →
       ClassDef.oid (Instance.cls o) = ClassDef.oid tc →
       _cast_binding b2 target self
       = (self, Returns {| inst := inst b1; view_cls := tc |})).
Proof.
  intros Hinst. split.
  - unfold _cast_binding. by rewrite Hinst.
  - intros tc o Hc Ho Hoid. rewrite Hinst in Ho |- *.
    apply (cast_binding_ok _ _ _ _ _ Hc Ho).
    destruct (Instance.cls o); simpl in *. by rewrite Hoid, Nat.eqb_refl.
Qed.

Lemma cast_ignores_current_view_witness :
  _cast_binding {| inst := 0%nat; view_cls := class_A |} "B" scenario
  = (scenario, Returns {| inst := 0%nat; view_cls := class_B |}).
Proof.
  refine (proj2 (cast_ignores_current_view scenario
                   {| inst := 0%nat; view_cls := class_B |}
                   {| inst := 0%nat; view_cls := class_A |} "B" eq_refl)
            class_B object_x _ _ eq_refl).
  - vm_compute. reflexivity.
  - vm_compute. reflexivity.
Defined.

(** ** Comments and blank statements *)

Section Comments.

Import PyStr.

Lemma split1_eq sep s :
  split1 sep s
  = if startswith sep s
    then Some (EmptyString, slice_from (String.length sep) s)
    else match s with
         | EmptyString => None
         | String c s' =>
             match split1 sep s' with
             | Some (a, b) => Some (String c a, b)
             | None => None
             end
         end.
Proof. by destruct s. Qed.

Lemma startswith_char c s :
  startswith (String c EmptyString) s
  = match s with
    | EmptyString => false
    | String x _ => Ascii.eqb c x
    end.
Proof. destruct s as [|x s]; [done|]. unfold startswith. by destruct (Ascii.eqb c x). Qed.

(** A one-character separator that does not occur in [a]: the first split
    of [a ++ c ++ b] is at the [c] in the middle. *)
Lemma split1_char_first c a b :
  contains (String c EmptyString) a = false →
  split1 (String c EmptyString) (a +:+ String c b) = Some (a, b).
Proof.
  unfold contains. induction a as [|x a IH]; intros Ha.
  - change (EmptyString +:+ String c b) with (String c b).
    rewrite split1_eq, startswith_char. by rewrite Ascii.eqb_refl.
  - rewrite split1_eq, startswith_char in Ha.
    change (String x a +:+ String c b) with (String x (a +:+ String c b)).
    rewrite split1_eq, startswith_char.
    destruct (Ascii.eqb c x); [done|].
    destruct (split1 (String c EmptyString) a) as [[??]|] eqn:Hsplit; [done|].
    by rewrite IH.
Qed.

Lemma split1_char_absent c a :
  contains (String c EmptyString) a = false →
  split1 (String c EmptyString) a = None.
Proof. unfold contains. by destruct (split1 _ a). Qed.

Lemma lstrip_blank s :
  Forall (λ c, isspace c = true) (list_ascii_of_string s) →
  lstrip s = EmptyString.
Proof.
  induction s as [|c s IH]; [done|]. simpl.
  intros H. inversion_clear H as [|? ? Hc Hs]. rewrite Hc. by apply IH.
Qed.

Lemma contains_blank c s :
  isspace c = false →
  Forall (λ x, isspace x = true) (list_ascii_of_string s) →
  contains (String c EmptyString) s = false.
Proof.
  intros Hc. unfold contains. induction s as [|x s IH]; intros H.
  - done.
  - simpl in H. inversion_clear H as [|? ? Hx Hs].
    rewrite split1_eq, startswith_char. cbv beta iota.
    destruct (Ascii.eqb_spec c x) as [->|_]; [congruence|].
    specialize (IH Hs). by destruct (split1 _ s) as [[??]|].
Qed.

End Comments.

Lemma trailing_comment_is_ignored_aux stmt comment self :
  PyStr.contains ";" stmt = false →
  _exec_statement (stmt +:+ String ";" comment) self = _exec_statement stmt self.
Proof.
  intros Hstmt. unfold _exec_statement.
  by rewrite (split1_char_first ";" stmt comment Hstmt),
             (split1_char_absent ";" stmt Hstmt).
Qed.

(** X11. What follows the first [;] of a statement is a comment: a
    statement followed by [;] and any text is executed as the statement
    alone. *)
Theorem trailing_comment_is_ignored stmt comment self :
  PyStr.contains ";" stmt = false →
  _exec_statement (stmt +:+ String ";" comment) self = _exec_statement stmt self.
Proof. apply trailing_comment_is_ignored_aux. Qed.

Lemma trailing_comment_is_ignored_witness :
  _exec_statement ("call y.show " +:+ String ";" " y is viewed as A; really") scenario
  = _exec_statement "call y.show " scenario.
Proof.
  refine (trailing_comment_is_ignored "call y.show "
            " y is viewed as A; really" scenario _).
  vm_compute. reflexivity.
Defined.

(** X12. A statement made of white space only, alone or followed by a
    comment, is skipped: it returns and leaves the interpreter as it is. *)
Theorem blank_statement_is_skipped blank comment self :
  Forall (λ c, PyStr.isspace c = true) (list_ascii_of_string blank) →
  _exec_statement blank self = (self, Returns tt)
  ∧ _exec_statement (blank +:+ String ";" comment) self = (self, Returns tt).
Proof.
  intros Hblank.
  assert (Hnone : PyStr.contains ";" blank = false)
    by (by apply contains_blank).
  assert (Hskip : _exec_statement blank self = (self, Returns tt)).
  { unfold _exec_statement. rewrite (split1_char_absent ";" blank Hnone).
    unfold PyStr.strip. by rewrite (lstrip_blank blank Hblank). }
  split; [done|]. by rewrite trailing_comment_is_ignored_aux.
Qed.

Lemma blank_statement_is_skipped_witness :
  _exec_statement "   " scenario = (scenario, Returns tt)
  ∧ _exec_statement ("   " +:+ String ";" " only a comment") scenario
    = (scenario, Returns tt).
Proof.
  refine (blank_statement_is_skipped "   " " only a comment" scenario _).
  repeat constructor.
Defined.

(** ** The integer literals, exactly *)

Section LiteralsExactly.

Import PyStr.

Lemma digit_char_uint c :
  isdigit c = true →
  ∃ dc : Decimal.uint → Decimal.uint,
    (∀ u, NilEmpty.string_of_uint (dc u) = String c (NilEmpty.string_of_uint u))
    ∧ (∀ u, dc u ≠ Decimal.Nil).
Proof.
  destruct c as [[] [] [] [] [] [] [] []]; intros H; vm_compute in H;
    try discriminate H;
    first
      [ exists Decimal.D0; split; intros u; [reflexivity|discriminate]
      | exists Decimal.D1; split; intros u; [reflexivity|discriminate]
      | exists Decimal.D2; split; intros u; [reflexivity|discriminate]
      | exists Decimal.D3; split; intros u; [reflexivity|discriminate]
      | exists Decimal.D4; split; intros u; [reflexivity|discriminate]
      | exists Decimal.D5; split; intros u; [reflexivity|discriminate]
      | exists Decimal.D6; split; intros u; [reflexivity|discriminate]
      | exists Decimal.D7; split; intros u; [reflexivity|discriminate]
      | exists Decimal.D8; split; intros u; [reflexivity|discriminate]
      | exists Decimal.D9; split; intros u; [reflexivity|discriminate] ].
Qed.

Lemma digits_to_end_inv seen s :
  digits_to_end seen s = true →
  ∃ u, (s = NilEmpty.string_of_uint u
        ∨ s = NilEmpty.string_of_uint u +:+ String "010" EmptyString)
       ∧ (seen = false → u ≠ Decimal.Nil).
Proof.
  revert seen. induction s as [|c s IH]; intros seen; simpl.
  - intros ->. exists Decimal.Nil. split; [by left|done].
  - destruct (isdigit c) eqn:Hc.
    + intros (u & Hu & _)%IH.
      destruct (digit_char_uint c Hc) as (dc & Hdc & Hnonnil).
      exists (dc u). split; [|by intros _].
      rewrite Hdc. destruct Hu as [-> | ->]; [by left|by right].
    + intros H. apply andb_prop in H as [H Hs].
      apply andb_prop in H as [Hseen Hnl]. subst seen.
      apply Ascii.eqb_eq in Hnl. subst c. destruct s; [|done].
      exists Decimal.Nil. split; [by right|done].
Qed.

Lemma digits_to_end_newline u :
  digits_to_end true (NilEmpty.string_of_uint u +:+ String "010" EmptyString)
  = true.
Proof. induction u; simpl; auto. Qed.

Lemma is_int_other_head a s :
  a ≠ "-"%char → is_int (String a s) = digits_to_end false (String a s).
Proof.
  destruct a as [[] [] [] [] [] [] [] []]; intros H; try reflexivity.
  by destruct H.
Qed.

Lemma rstrip_no_trailing_space s a c :
  rstrip s = a +:+ String c EmptyString → isspace c = false.
Proof.
  revert a. induction s as [|x s IH]; intros a; simpl.
  - by destruct a.
  - destruct (isspace x && is_empty (rstrip s)) eqn:Hx; [by destruct a|].
    destruct a as [|y a]; simpl.
    + intros [= -> Hs]. rewrite Hs in Hx. simpl in Hx.
      by rewrite andb_true_r in Hx.
    + intros [= -> Hs]. by apply (IH a).
Qed.

End LiteralsExactly.

(** X13. On a text of code points below 256, which the strings of this
    development are, [is_int] accepts exactly the signed decimal numerals:
    an optional minus sign followed by one or more of the digits [0] to
    [9], possibly followed by one final newline (which [$] of the pattern
    lets through).  On a stripped string, as everywhere it is called on a
    statement, the newline cannot occur.  (Beyond code point 255 [\d]
    matches further decimal digits, which these strings do not hold.) *)
Theorem is_int_accepts_exactly_signed_decimals tok :
  (is_int tok = true
   ↔ ∃ d, has_digits d
          ∧ (tok = literal d ∨ tok = literal d +:+ String "010" EmptyString))
  ∧ (∀ s, tok = PyStr.strip s →
       is_int tok = true → ∃ d, has_digits d ∧ tok = literal d).
Proof.
  assert (Hinv : is_int tok = true →
                 ∃ d, has_digits d
                      ∧ (tok = literal d
                         ∨ tok = literal d +:+ String "010" EmptyString)).
  { destruct tok as [|a s]; [done|].
    destruct (decide (a = "-"%char)) as [->|Ha].
    - intros (u & Hu & Hnonnil)%digits_to_end_inv.
      exists (Decimal.Neg u). split; [by apply Hnonnil|].
      simpl. destruct Hu as [-> | ->]; [by left|by right].
    - rewrite (is_int_other_head a s Ha).
      intros (u & Hu & Hnonnil)%digits_to_end_inv.
      exists (Decimal.Pos u). split; [by apply Hnonnil|].
      simpl. destruct Hu as [-> | ->]; [by left|by right]. }
  split; [split; [exact Hinv|]|].
  - intros (d & Hd & [-> | ->]); [by apply is_int_literal|].
    destruct d as [u|u]; simpl in *.
    + destruct u; [done|..]; apply digits_to_end_newline.
    + destruct u; [done|..]; apply digits_to_end_newline.
  - intros s Hs (d & Hd & [-> | ->])%Hinv; [by exists d|].
    unfold PyStr.strip in Hs. symmetry in Hs.
    by apply rstrip_no_trailing_space in Hs.
Qed.

Lemma is_int_accepts_exactly_signed_decimals_witness :
  ∃ d, has_digits d ∧ "-42" = literal d.
Proof.
  refine (proj2 (is_int_accepts_exactly_signed_decimals "-42")
            "  -42 " eq_refl eq_refl).
Defined.

(** X14. What [call] prints can be read back: for an integer whose text
    has at most 4300 digits, [str] returns that text, [is_int] accepts it
    as an integer literal, and [int] returns the integer from it. *)
Theorem printed_values_read_back (z : Z) :
  (count_digits (PyStr.str z) ≤ int_max_str_digits)%nat →
  str_limited z = Some (PyStr.str z)
  ∧ is_int (PyStr.str z) = true
  ∧ int_limited (PyStr.str z) = Some z.
Proof.
  intros Hlen. unfold str_limited, int_limited.
  rewrite (proj2 (Nat.leb_le _ _) Hlen). split; [done|].
  destruct (str_literal z) as [Hd ->].
  split; [by apply is_int_literal|].
  rewrite (int_literal _ Hd). f_equal. apply DecimalZ.of_to.
Qed.

Lemma printed_values_read_back_witness :
  str_limited (-42) = Some (PyStr.str (-42))
  ∧ is_int (PyStr.str (-42)) = true
  ∧ int_limited (PyStr.str (-42)) = Some (-42).
Proof.
  apply (printed_values_read_back (-42)).
  apply Nat.leb_le. vm_compute. reflexivity.
Defined.

(** * The loader *)

Section Loader.

Import PyStr PyText Parser.

Lemma table_lookup_app (table : class_table) name cls key :
  table_lookup (table ++ [(name, cls)]) key
  = match table_lookup table key with
    | Some c => Some c
    | None => if decide (name = key) then Some cls else None
    end.
Proof.
  induction table as [|[k c] table IH]; simpl; [done|].
  by destruct (decide (k = key)).
Qed.

Lemma table_lookup_elem (table : class_table) key cls :
  table_lookup table key = Some cls → ∃ i, table !! i = Some (key, cls).
Proof.
  induction table as [|[k c] table IH]; simpl; [done|].
  destruct (decide (k = key)) as [->|Hne].
  - intros [= ->]. by exists 0%nat.
  - intros [i Hi]%IH. by exists (S i).
Qed.

Lemma table_lookup_None (table : class_table) key :
  table_lookup table key = None ↔ key ∉ table.*1.
Proof.
  induction table as [|[k c] table IH]; simpl.
  - split; [intros _; apply not_elem_of_nil|done].
  - rewrite not_elem_of_cons. destruct (decide (k = key)) as [->|Hne].
    + split; [done|]. by intros [? _].
    + rewrite IH. split; [by intros ?|by intros [_ ?]].
Qed.

Lemma table_wf_nil : table_wf [].
Proof. by intros i name cls Hi. Qed.

Lemma table_wf_snoc (table : class_table) name b :
  table_wf table →
  table_lookup table name = None →
  table_wf (table ++ [(name,
              ClassDef.mk (length table) name (block_base_name b)
                          (block_fields b) (block_methods b) None)]).
Proof.
  intros Hwf Hnew i k c Hi. rewrite table_lookup_app.
  apply lookup_app_Some in Hi as [Hi|[Hge Hi]].
  - destruct (Hwf i k c Hi) as (? & ? & ? & Hlook). by rewrite Hlook.
  - apply list_lookup_singleton_Some in Hi as [Hi0 [= <- <-]].
    rewrite Hnew. simpl. rewrite decide_True by done.
    repeat split. lia.
Qed.

Lemma table_wf_NoDup (table : class_table) : table_wf table → NoDup table.*1.
Proof.
  intros Hwf. apply NoDup_alt. intros i j name Hi Hj.
  rewrite list_lookup_fmap in Hi, Hj.
  destruct (table !! i) as [[k1 c1]|] eqn:Hti; simplify_eq/=.
  destruct (table !! j) as [[k2 c2]|] eqn:Htj; simplify_eq/=.
  destruct (Hwf _ _ _ Hti) as (_ & Ho1 & _ & Hl1).
  destruct (Hwf _ _ _ Htj) as (_ & Ho2 & _ & Hl2).
  congruence.
Qed.

(** The class block loop gives back lines it was given, never more. *)
Lemma class_body_length in_methods lines b b' lines' :
  class_body in_methods lines b = inr (b', lines') →
  (length lines' ≤ length lines)%nat.
Proof.
  revert in_methods b. induction lines as [|l rest IH]; intros in_methods b; simpl.
  - intros [= _ <-]. done.
  - repeat case_match; try done;
      try (intros [= _ <-]; simpl; lia);
      intros Hrun; apply IH in Hrun; lia.
Qed.

Lemma parse_class_block_spec lines classes classes' lines' :
  table_wf classes →
  _parse_class_block lines classes = inr (classes', lines') →
  table_wf classes' ∧ (length lines' < length lines)%nat.
Proof.
  intros Hwf. unfold _parse_class_block.
  destruct lines as [|l rest]; [done|].
  destruct (split_ws1 (strip l)) as [|w [|name [|??]]]; try done.
  destruct (class_body false rest _) as [e|[b rest']] eqn:Hbody; [done|].
  case_decide as Hdup; [done|]. intros [= <- <-].
  apply class_body_length in Hbody. split; [|simpl; lia].
  apply table_wf_snoc; [done|].
  destruct (table_lookup classes (strip name)); [|done].
  destruct Hdup. by eexists.
Qed.

Lemma parse_classes_spec fuel lines classes :
  table_wf classes →
  (length lines < fuel)%nat →
  ∃ r, parse_classes fuel lines classes = Some r
       ∧ ∀ classes' rest, r = inr (classes', rest) →
           table_wf classes' ∧ (length rest ≤ length lines)%nat.
Proof.
  revert lines classes.
  induction fuel as [|fuel IH]; intros lines classes Hwf Hfuel; [lia|].
  destruct lines as [|l rest]; cbn [parse_classes].
  { eexists. split; [done|]. intros ? ? [= <- <-]. by split. }
  simpl in Hfuel.
  destruct (is_empty (strip l) || startswith "//" (strip l)
            || startswith ";" (strip l)).
  { destruct (IH rest classes Hwf ltac:(lia)) as (r & -> & Hr).
    exists r. split; [done|]. intros classes' rest' ->.
    destruct (Hr _ _ eq_refl). split; [done|]. simpl. lia. }
  destruct (negb (startswith "CLASS " (strip l))).
  { eexists. split; [done|]. intros ? ? [= <- <-]. by split. }
  destruct (_parse_class_block (l :: rest) classes) as [e|[classes1 lines1]]
    eqn:Hblock.
  { eexists. split; [done|]. by intros ? ? [=]. }
  destruct (parse_class_block_spec _ _ _ _ Hwf Hblock) as [Hwf1 Hlen1].
  simpl in Hlen1.
  destruct (IH lines1 classes1 Hwf1 ltac:(lia)) as (r & -> & Hr).
  exists r. split; [done|]. intros classes' rest' ->.
  destruct (Hr _ _ eq_refl). split; [done|]. simpl. lia.
Qed.

Lemma linked_S fuel (table : class_table) name :
  linked (S fuel) table name
  = match table_lookup table name with
    | None => None
    | Some cls =>
        match ClassDef.base_name cls with
        | None => Some cls
        | Some base_name =>
            match linked fuel table base_name with
            | None => None
            | Some b =>
                Some (ClassDef.mk (ClassDef.oid cls) (ClassDef.name cls)
                        (ClassDef.base_name cls) (ClassDef.fields cls)
                        (ClassDef.methods cls) (Some b))
            end
        end
    end.
Proof. done. Qed.

(** Following the bases for longer gives the same class object. *)
Lemma linked_stable fuel (table : class_table) name c :
  linked fuel table name = Some c → linked (S fuel) table name = Some c.
Proof.
  revert name c. induction fuel as [|fuel IH]; intros name c; [done|].
  intros H. rewrite linked_S. rewrite linked_S in H.
  destruct (table_lookup table name) as [cls|]; [|done].
  destruct (ClassDef.base_name cls) as [bn|]; [|done].
  destruct (linked fuel table bn) as [b|] eqn:Hb; [|done].
  by rewrite (IH _ _ Hb).
Qed.

Lemma linked_le fuel fuel' (table : class_table) name c :
  (fuel ≤ fuel')%nat →
  linked fuel table name = Some c → linked fuel' table name = Some c.
Proof. induction 1; [done|]. intros ?. by apply linked_stable, IHle. Qed.

Lemma linked_agree fuel1 fuel2 (table : class_table) name c1 c2 :
  linked fuel1 table name = Some c1 →
  linked fuel2 table name = Some c2 → c1 = c2.
Proof.
  intros H1 H2.
  apply (linked_le _ (fuel1 `max` fuel2)) in H1; [|lia].
  apply (linked_le _ (fuel1 `max` fuel2)) in H2; [|lia].
  congruence.
Qed.

(** The class object made for a name: what the declaration says, and the
    object made for the base name as base. *)
Lemma linked_inv fuel (table : class_table) name c :
  table_wf table →
  linked fuel table name = Some c →
  ∃ decl fuel',
    fuel = S fuel'
    ∧ table_lookup table name = Some decl
    ∧ ClassDef.name c = name
    ∧ ClassDef.oid c = ClassDef.oid decl
    ∧ ClassDef.base_name c = ClassDef.base_name decl
    ∧ ClassDef.fields c = ClassDef.fields decl
    ∧ ClassDef.methods c = ClassDef.methods decl
    ∧ ClassDef.base c = (ClassDef.base_name decl ≫= linked fuel' table)
    ∧ (∀ bn, ClassDef.base_name decl = Some bn →
         is_Some (linked fuel' table bn)).
Proof.
  intros Hwf. destruct fuel as [|fuel]; [done|]. rewrite linked_S.
  destruct (table_lookup table name) as [decl|] eqn:Hdecl; [|done].
  destruct (table_lookup_elem _ _ _ Hdecl) as [i Hi].
  destruct (Hwf _ _ _ Hi) as (Hname & Hoid & Hbase & _).
  destruct (ClassDef.base_name decl) as [bn|] eqn:Hbn.
  - destruct (linked fuel table bn) as [b|] eqn:Hb; [|done].
    intros [= <-]. exists decl, fuel. simpl. rewrite Hbn. simpl.
    rewrite Hb. repeat split; try done. intros ? [= <-]. by eexists.
  - intros [= <-]. exists decl, fuel. rewrite Hbn. simpl.
    repeat split; try done.
Qed.

Lemma check_bases_ok (table classes : class_table) :
  check_bases table classes = inr tt →
  ∀ key cls bn,
    (key, cls) ∈ classes → ClassDef.base_name cls = Some bn →
    is_Some (table_lookup table bn).
Proof.
  induction classes as [|[k c] classes IH]; simpl; intros Hok key cls bn Hin Hbn.
  - by apply elem_of_nil in Hin.
  - apply elem_of_cons in Hin as [[= -> ->]|Hin].
    + rewrite Hbn in Hok. by case_decide.
    + destruct (ClassDef.base_name c); [case_decide; [|done]|]; by eapply IH.
Qed.

Lemma check_fields_ok (table classes : class_table) :
  check_fields table classes = inr tt →
  ∀ key cls bn,
    (key, cls) ∈ classes → ClassDef.base_name cls = Some bn →
    ∃ b, linked (length table) table bn = Some b
         ∧ ∀ f, f ∈ ClassDef.fields cls → f ∉ ClassDef.all_fields b.
Proof.
  induction classes as [|[k c] classes IH]; simpl; intros Hok key cls bn Hin Hbn.
  - by apply elem_of_nil in Hin.
  - apply elem_of_cons in Hin as [[= -> ->]|Hin].
    + rewrite Hbn in Hok.
      destruct (linked (length table) table bn) as [b|]; [|done].
      exists b. split; [done|].
      destruct (list_find _ _) as [[??]|] eqn:Hfind; [done|].
      apply list_find_None in Hfind. intros f Hf.
      by apply (proj1 (Forall_forall _ _) Hfind).
    + destruct (ClassDef.base_name c) as [bn'|]; [|by eapply IH].
      destruct (linked (length table) table bn') as [b|]; [|done].
      destruct (list_find _ _) as [[??]|]; [done|]. by eapply IH.
Qed.

(** Looking a name up in the dictionary of the linked classes. *)
Lemma table_lookup_omap (g : string → option ClassDef.t) (table : class_table) key :
  table_lookup (omap (λ item, cls ← g item.1; Some (item.1, cls)) table) key
  = if decide (key ∈ table.*1) then g key else None.
Proof.
  induction table as [|[k c] table IH]; [done|].
  destruct (decide (k = key)) as [->|Hne].
  - rewrite (decide_True (P := key ∈ ((key, c) :: table).*1))
      by (apply elem_of_cons; by left).
    destruct (g key) as [cls|] eqn:Hg.
    + simpl. rewrite Hg. simpl. by rewrite decide_True.
    + simpl. rewrite Hg. simpl. etrans; [exact IH|]. by case_decide.
  - assert (Hdec : (if decide (key ∈ ((k, c) :: table).*1) then g key else None)
                   = if decide (key ∈ table.*1) then g key else None).
    { destruct (decide (key ∈ table.*1)) as [Hin|Hnin].
      * rewrite decide_True; [done|]. apply elem_of_cons. by right.
      * rewrite decide_False; [done|].
        rewrite fmap_cons. intros [Heq|Hin]%elem_of_cons; simpl in *;
          [by subst|done]. }
    rewrite Hdec. clear Hdec.
    destruct (g k) as [cls|] eqn:Hg.
    + simpl. rewrite Hg. simpl. rewrite decide_False by done. exact IH.
    + simpl. rewrite Hg. simpl. exact IH.
Qed.

Lemma table_lookup_to_map (table : class_table) key :
  (list_to_map table : gmap string ClassDef.t) !! key = table_lookup table key.
Proof.
  induction table as [|[k c] table IH]; simpl; [done|].
  destruct (decide (k = key)) as [->|Hne].
  - by rewrite lookup_insert_eq.
  - by rewrite lookup_insert_ne.
Qed.

(** What a successful resolution has made: the class of every name of the
    dictionary, linked. *)
Lemma resolve_ok (table classes : class_table) :
  table_wf table →
  _resolve_bases_and_check_fields table = inr classes →
  (∀ key, table_lookup classes key
          = if decide (key ∈ table.*1)
            then linked (S (length table)) table key else None)
  ∧ (∀ key, key ∈ table.*1 → is_Some (linked (S (length table)) table key))
  ∧ (∀ key cls bn,
       (key, cls) ∈ table → ClassDef.base_name cls = Some bn →
       bn ∈ table.*1
       ∧ ∃ b, linked (length table) table bn = Some b
              ∧ ∀ f, f ∈ ClassDef.fields cls → f ∉ ClassDef.all_fields b).
Proof.
  intros Hwf. unfold _resolve_bases_and_check_fields.
  destruct (check_bases table table) as [e|[]] eqn:Hbases; [done|].
  destruct (check_fields table table) as [e|[]] eqn:Hfields; [done|].
  intros [= <-].
  assert (Hbase : ∀ key cls bn,
             (key, cls) ∈ table → ClassDef.base_name cls = Some bn →
             bn ∈ table.*1
             ∧ ∃ b, linked (length table) table bn = Some b
                    ∧ ∀ f, f ∈ ClassDef.fields cls → f ∉ ClassDef.all_fields b).
  { intros key cls bn Hin Hbn. split; [|by eapply check_fields_ok].
    destruct (check_bases_ok _ _ Hbases _ _ _ Hin Hbn) as [b Hb].
    destruct (table_lookup_elem _ _ _ Hb) as [i Hi].
    apply list_elem_of_fmap. exists (bn, b). split; [done|].
    by eapply list_elem_of_lookup_2. }
  split; [intros key; exact (table_lookup_omap
                    (linked (S (length table)) table) table key)|].
  split; [|exact Hbase].
  intros key [[k cls] [-> Hin]]%list_elem_of_fmap. cbn [fst].
  apply list_elem_of_lookup in Hin as [i Hi].
  destruct (Hwf _ _ _ Hi) as (_ & _ & _ & Hlook).
  rewrite linked_S, Hlook.
  destruct (ClassDef.base_name cls) as [bn|] eqn:Hbn; [|by eexists].
  destruct (Hbase k cls bn) as (_ & b & Hb & _);
    [by eapply list_elem_of_lookup_2|done|].
  rewrite Hb. by eexists.
Qed.

Lemma linked_elem fuel (table : class_table) key c :
  linked fuel table key = Some c → key ∈ table.*1.
Proof.
  destruct fuel as [|fuel]; [done|]. rewrite linked_S.
  destruct (table_lookup table key) as [decl|] eqn:Hdecl; [|done].
  intros _. destruct (table_lookup_elem _ _ _ Hdecl) as [i Hi].
  apply list_elem_of_fmap. exists (key, decl). split; [done|].
  by eapply list_elem_of_lookup_2.
Qed.

(** [parse] returns, and what it returns on success. *)
Lemma parse_spec src :
  ∃ r, parse src = Some r
       ∧ ∀ classes statements, r = inr (classes, statements) →
           ∃ table rest,
             table_wf table
             ∧ _resolve_bases_and_check_fields table = inr classes
             ∧ statements = parse_statements rest.
Proof.
  unfold parse.
  destruct (parse_classes_spec (S (length (rstrip <$> splitlines src)))
              (rstrip <$> splitlines src) [] table_wf_nil) as (r & -> & Hr);
    [lia|].
  destruct r as [e|[table rest]].
  - eexists. split; [done|]. intros ?? [=].
  - destruct (Hr table rest eq_refl) as [Hwf _].
    destruct (_resolve_bases_and_check_fields table) as [e|classes] eqn:Hres.
    + eexists. split; [done|]. intros ?? [=].
    + eexists. split; [done|]. intros ?? [= <- <-]. by exists table, rest.
Qed.

(** The classes of a loaded interpreter: the linked class of every name
    of the parser's dictionary. *)
Lemma load_classes src self :
  load src = Some (inr self) →
  ∃ table,
    table_wf table
    ∧ (∀ key, classes self !! key = linked (S (length table)) table key)
    ∧ (∀ key, key ∈ table.*1 → is_Some (linked (S (length table)) table key))
    ∧ (∀ key cls bn,
         (key, cls) ∈ table → ClassDef.base_name cls = Some bn →
         bn ∈ table.*1
         ∧ ∃ b, linked (length table) table bn = Some b
                ∧ ∀ f, f ∈ ClassDef.fields cls → f ∉ ClassDef.all_fields b).
Proof.
  unfold load. destruct (parse_spec src) as (r & -> & Hr).
  destruct r as [e|[cl statements]]; [done|]. intros [= <-].
  destruct (Hr _ _ eq_refl) as (table & rest & Hwf & Hres & _).
  destruct (resolve_ok _ _ Hwf Hres) as (Hlook & Hall & Hbase).
  exists table. split; [done|]. split; [|by split].
  intros key. cbn [classes __init__]. rewrite table_lookup_to_map, Hlook.
  case_decide as Hin; [done|].
  destruct (linked (S (length table)) table key) as [c|] eqn:Hc; [|done].
  destruct Hin. by eapply linked_elem.
Qed.

(** Every class on the chain of a linked class is the linked class of its
    own name. *)
Lemma linked_chain (table : class_table) fuel key c :
  table_wf table →
  (∀ key, key ∈ table.*1 → is_Some (linked (S (length table)) table key)) →
  linked fuel table key = Some c →
  ∀ k, k ∈ chain c → linked (S (length table)) table (ClassDef.name k) = Some k.
Proof.
  intros Hwf Hall. revert key c.
  induction fuel as [|fuel IH]; intros key c Hc k Hk; [done|].
  destruct (linked_inv _ _ _ _ Hwf Hc)
    as (decl & fuel' & [= <-] & Hdecl & Hname & _ & _ & _ & _ & Hbase & Hsome).
  rewrite chain_unfold in Hk. apply elem_of_cons in Hk as [->|Hk].
  - rewrite Hname.
    destruct (Hall key (linked_elem _ _ _ _ Hc)) as [c' Hc'].
    by rewrite Hc', (linked_agree _ _ _ _ _ _ Hc' Hc).
  - destruct (ClassDef.base c) as [b|] eqn:Hb; [|by apply elem_of_nil in Hk].
    destruct (ClassDef.base_name decl) as [bn|]; [|done]. simpl in Hbase.
    by eapply (IH bn b).
Qed.

(** One identity, one class. *)
Lemma linked_oid (table : class_table) fuel1 fuel2 key1 key2 c1 c2 :
  table_wf table →
  linked fuel1 table key1 = Some c1 →
  linked fuel2 table key2 = Some c2 →
  ClassDef.oid c1 = ClassDef.oid c2 →
  key1 = key2 ∧ c1 = c2.
Proof.
  intros Hwf H1 H2 Hoid.
  destruct (linked_inv _ _ _ _ Hwf H1)
    as (d1 & ? & _ & Hd1 & _ & Ho1 & _).
  destruct (linked_inv _ _ _ _ Hwf H2)
    as (d2 & ? & _ & Hd2 & _ & Ho2 & _).
  destruct (table_lookup_elem _ _ _ Hd1) as [i1 Hi1].
  destruct (table_lookup_elem _ _ _ Hd2) as [i2 Hi2].
  destruct (Hwf _ _ _ Hi1) as (_ & Hr1 & _).
  destruct (Hwf _ _ _ Hi2) as (_ & Hr2 & _).
  assert (i1 = i2) as -> by congruence.
  assert (key1 = key2) as -> by congruence.
  split; [done|]. by eapply linked_agree.
Qed.

(** A chain does not come back to a class it has been through. *)
Lemma chain_length_elem c k :
  k ∈ chain c → (length (chain k) ≤ length (chain c))%nat.
Proof.
  intros Hk. destruct (chain_suffix c k Hk) as [skipped ->].
  rewrite length_app. lia.
Qed.

Lemma chain_NoDup c : NoDup (chain c).
Proof.
  induction c as [o n bn fs ms|o n bn fs ms b IH] using ClassDef.chain_ind.
  - apply NoDup_singleton.
  - rewrite chain_unfold. cbn [ClassDef.base]. apply NoDup_cons. split; [|done].
    intros Hin. apply chain_length_elem in Hin.
    rewrite chain_unfold in Hin. cbn [ClassDef.base length] in Hin. lia.
Qed.

Lemma all_fields_unfold c :
  ClassDef.all_fields c
  = match ClassDef.base c with
    | None => ClassDef.fields c
    | Some b => ClassDef.all_fields b ++ ClassDef.fields c
    end.
Proof. by destruct c. Qed.

Lemma lstrip_head s c r : lstrip s = String c r → isspace c = false.
Proof.
  induction s as [|a s IH]; simpl; [done|].
  destruct (isspace a) eqn:Ha; [done|]. by intros [= <- _].
Qed.

Lemma rstrip_idemp s : rstrip (rstrip s) = rstrip s.
Proof.
  induction s as [|a s IH]; simpl; [done|].
  destruct (isspace a && is_empty (rstrip s)) eqn:Hc; [done|].
  simpl. by rewrite IH, Hc.
Qed.

Lemma strip_head s c r : strip s = String c r → isspace c = false.
Proof.
  unfold strip. destruct (lstrip s) as [|a s'] eqn:Hl; [done|].
  pose proof (lstrip_head _ _ _ Hl) as Ha. simpl. rewrite Ha. simpl.
  by intros [= <- _].
Qed.

Lemma strip_idemp s : strip (strip s) = strip s.
Proof.
  destruct (strip s) as [|c r] eqn:Hs; [done|].
  pose proof (strip_head _ _ _ Hs) as Hc. unfold strip in *.
  simpl. rewrite Hc. rewrite <- Hs. apply rstrip_idemp.
Qed.

(** What the second loop of [parse] keeps. *)
Lemma parse_statements_elem rest s :
  s ∈ parse_statements rest →
  ∃ l, l ∈ rest ∧ s = strip l
       ∧ is_empty s = false
       ∧ startswith "//" s = false
       ∧ startswith ";" s = false.
Proof.
  induction rest as [|l rest IH]; simpl; [by intros ?%elem_of_nil|].
  destruct (is_empty (strip l)) eqn:He; simpl.
  { intros Hs. destruct (IH Hs) as (l' & ? & ?).
    exists l'. split; [by apply list_elem_of_further|done]. }
  destruct (startswith "//" (strip l)) eqn:Hc; simpl.
  { intros Hs. destruct (IH Hs) as (l' & ? & ?).
    exists l'. split; [by apply list_elem_of_further|done]. }
  destruct (startswith ";" (strip l)) eqn:Hd; simpl.
  { intros Hs. destruct (IH Hs) as (l' & ? & ?).
    exists l'. split; [by apply list_elem_of_further|done]. }
  intros [->|Hs]%elem_of_cons.
  - exists l. split; [apply list_elem_of_here|done].
  - destruct (IH Hs) as (l' & ? & ?).
    exists l'. split; [by apply list_elem_of_further|done].
Qed.

Lemma load_scenario_source : load scenario_source = Some (inr scenario_loaded).
Proof. vm_compute. reflexivity. Qed.

(** X15. [parse] returns on every program text, with the classes and the
    statements or with an error: every round of its class loop moves on in
    the lines, a class block taking at least its header line. *)
Theorem parse_always_returns src :
  (∃ r, parse src = Some r) ∧ (∃ r, load src = Some r).
Proof.
  destruct (parse_spec src) as (r & Hr & _). split; [by exists r|].
  unfold load. rewrite Hr. destruct r as [e|[cl st]]; by eexists.
Qed.

(** X16. In a loaded program every class is registered under its own
    name, a class declared without base has no base object, and the base
    object of a class declared with a base is the registered class of
    that base name. *)
Theorem loaded_classes_are_linked src self :
  load src = Some (inr self) →
  ∀ key c, classes self !! key = Some c →
    ClassDef.name c = key
    ∧ match ClassDef.base_name c with
      | None => ClassDef.base c = None
      | Some bn => ∃ b, classes self !! bn = Some b ∧ ClassDef.base c = Some b
      end.
Proof.
  intros Hload key c Hc.
  destruct (load_classes _ _ Hload) as (table & Hwf & Hlook & Hall & Hbase).
  rewrite Hlook in Hc.
  destruct (linked_inv _ _ _ _ Hwf Hc)
    as (decl & fuel' & [= <-] & Hdecl & Hname & _ & Hbn & _ & _ & Hb & Hsome).
  split; [done|]. rewrite Hbn.
  destruct (ClassDef.base_name decl) as [bn|]; [|done].
  destruct (Hsome bn eq_refl) as [b Hlb]. exists b.
  rewrite Hlook. split; [by apply linked_stable|].
  rewrite Hb. simpl. done.
Qed.

Lemma loaded_classes_are_linked_witness :
  ClassDef.name class_B = "B"
  ∧ ∃ b, classes scenario_loaded !! "A" = Some b ∧ ClassDef.base class_B = Some b.
Proof.
  exact (loaded_classes_are_linked scenario_source scenario_loaded
           load_scenario_source "B" class_B eq_refl).
Defined.

(** X17. In a loaded program every class on the chain of a registered
    class is the class registered under its name, two registered classes
    with the same identity are the same class under the same name, no
    class name occurs twice on a chain, and [is_subclass_of] between
    registered classes holds exactly when the second is on the chain of
    the first. *)
Theorem loaded_class_identity src self :
  load src = Some (inr self) →
  ∀ key c, classes self !! key = Some c →
    (∀ k, k ∈ chain c → classes self !! ClassDef.name k = Some k)
    ∧ (∀ key' c', classes self !! key' = Some c' →
         ClassDef.oid c = ClassDef.oid c' → key = key' ∧ c = c')
    ∧ NoDup (ClassDef.name <$> chain c)
    ∧ (∀ key' c', classes self !! key' = Some c' →
         (ClassDef.is_subclass_of c c' = true ↔ c' ∈ chain c)).
Proof.
  intros Hload key c Hc.
  destruct (load_classes _ _ Hload) as (table & Hwf & Hlook & Hall & Hbase).
  rewrite Hlook in Hc.
  assert (Hchain : ∀ k, k ∈ chain c →
            linked (S (length table)) table (ClassDef.name k) = Some k)
    by (by eapply linked_chain).
  split; [|split; [|split]].
  - intros k Hk. rewrite Hlook. by apply Hchain.
  - intros key' c' Hc' Hoid. rewrite Hlook in Hc'. by eapply linked_oid.
  - apply NoDup_fmap_2_strong; [|apply chain_NoDup].
    intros k1 k2 Hk1 Hk2 Hname.
    apply Hchain in Hk1. apply Hchain in Hk2. congruence.
  - intros key' c' Hc'. rewrite Hlook in Hc'. split.
    + intros (k & Hk & Hoid)%is_subclass_of_chain.
      destruct (linked_oid _ _ _ _ _ _ _ Hwf (Hchain k Hk) Hc' Hoid) as [_ <-].
      done.
    + intros Hin. apply is_subclass_of_chain. by exists c'.
Qed.

Lemma loaded_class_identity_witness :
  (∀ k, k ∈ chain class_B →
     classes scenario_loaded !! ClassDef.name k = Some k)
  ∧ (∀ key' c', classes scenario_loaded !! key' = Some c' →
       ClassDef.oid class_B = ClassDef.oid c' → "B" = key' ∧ class_B = c')
  ∧ NoDup (ClassDef.name <$> chain class_B)
  ∧ (∀ key' c', classes scenario_loaded !! key' = Some c' →
       (ClassDef.is_subclass_of class_B c' = true ↔ c' ∈ chain class_B)).
Proof.
  exact (loaded_class_identity scenario_source scenario_loaded
           load_scenario_source "B" class_B eq_refl).
Defined.

(** X18. On the classes of a loaded program [is_subclass_of] is a partial
    order: it is transitive, and two classes that are subclasses of each
    other are the same class. *)
Theorem loaded_subclass_partial_order src self :
  load src = Some (inr self) →
  ∀ ka kb a b,
    classes self !! ka = Some a →
    classes self !! kb = Some b →
    ClassDef.is_subclass_of a b = true →
    (∀ c, ClassDef.is_subclass_of b c = true →
          ClassDef.is_subclass_of a c = true)
    ∧ (ClassDef.is_subclass_of b a = true → a = b).
Proof.
  intros Hload ka kb a b Ha Hb Hab.
  destruct (load_classes _ _ Hload) as (table & Hwf & Hlook & Hall & Hbase).
  rewrite Hlook in Ha, Hb.
  assert (Hon : ∀ kx ky x y,
            linked (S (length table)) table kx = Some x →
            linked (S (length table)) table ky = Some y →
            ClassDef.is_subclass_of x y = true → y ∈ chain x).
  { intros kx ky x y Hx Hy (k & Hk & Hoid)%is_subclass_of_chain.
    pose proof (linked_chain _ _ _ _ Hwf Hall Hx k Hk) as Hlk.
    by destruct (linked_oid _ _ _ _ _ _ _ Hwf Hlk Hy Hoid) as [_ <-]. }
  pose proof (Hon _ _ _ _ Ha Hb Hab) as Hin.
  destruct (chain_suffix a b Hin) as [skipped Hsuf].
  split.
  - intros c (k & Hk & Hoid)%is_subclass_of_chain.
    apply is_subclass_of_chain. exists k. split; [|done].
    rewrite Hsuf. apply elem_of_app. by right.
  - intros Hba. pose proof (Hon _ _ _ _ Hb Ha Hba) as Hin'.
    apply chain_length_elem in Hin'.
    rewrite Hsuf, length_app in Hin'.
    destruct skipped as [|x skipped]; [|simpl in Hin'; lia].
    simpl in Hsuf. rewrite (chain_unfold a), (chain_unfold b) in Hsuf.
    by injection Hsuf.
Qed.

Lemma loaded_subclass_partial_order_witness :
  (∀ c, ClassDef.is_subclass_of class_A c = true →
        ClassDef.is_subclass_of class_B c = true)
  ∧ (ClassDef.is_subclass_of class_A class_B = true → class_B = class_A).
Proof.
  exact (loaded_subclass_partial_order scenario_source scenario_loaded
           load_scenario_source "B" "A" class_B class_A eq_refl eq_refl eq_refl).
Defined.

(** X19. In a loaded program no class declares a field that a class
    above it on its chain has declared; so when no class lists one of
    its own fields twice, [all_fields] has no repeated name. *)
Theorem loaded_fields_not_redeclared src self :
  load src = Some (inr self) →
  ∀ key c, classes self !! key = Some c →
    (∀ b, ClassDef.base c = Some b →
       ∀ f, f ∈ ClassDef.fields c → f ∉ ClassDef.all_fields b)
    ∧ ((∀ k, k ∈ chain c → NoDup (ClassDef.fields k)) →
       NoDup (ClassDef.all_fields c)).
Proof.
  intros Hload.
  destruct (load_classes _ _ Hload) as (table & Hwf & Hlook & Hall & Hbase).
  assert (Hown : ∀ key c, linked (S (length table)) table key = Some c →
            ∀ b, ClassDef.base c = Some b →
              ∀ f, f ∈ ClassDef.fields c → f ∉ ClassDef.all_fields b).
  { intros key c Hc b Hb f Hf.
    destruct (linked_inv _ _ _ _ Hwf Hc)
      as (decl & fuel' & [= <-] & Hdecl & _ & _ & _ & Hfs & _ & Hbc & _).
    destruct (table_lookup_elem _ _ _ Hdecl) as [i Hi].
    destruct (ClassDef.base_name decl) as [bn|] eqn:Hbn;
      [|simpl in Hbc; congruence].
    destruct (Hbase key decl bn) as (_ & b' & Hb' & Hdisj);
      [by eapply list_elem_of_lookup_2|done|].
    simpl in Hbc. rewrite Hb' in Hbc. assert (b = b') as -> by congruence.
    apply Hdisj. by rewrite <- Hfs. }
  intros key c Hc. rewrite Hlook in Hc. split; [by eapply Hown|].
  pose proof (linked_chain _ _ _ _ Hwf Hall Hc) as Hchain.
  clear Hc. revert Hchain.
  induction c as [o n bn fs ms|o n bn fs ms b IH] using ClassDef.chain_ind;
    intros Hchain Hnd.
  - apply (Hnd _ (list_elem_of_here _ _)).
  - rewrite all_fields_unfold. cbn [ClassDef.base ClassDef.fields].
    apply NoDup_app. split; [|split].
    + apply IH.
      * intros k Hk. apply Hchain. rewrite chain_unfold.
        by apply list_elem_of_further.
      * intros k Hk. apply Hnd. rewrite chain_unfold.
        by apply list_elem_of_further.
    + intros f Hfb Hfs.
      by apply (Hown _ _ (Hchain _ (list_elem_of_here _ _)) b eq_refl f Hfs).
    + apply (Hnd _ (list_elem_of_here _ _)).
Qed.

Lemma loaded_fields_not_redeclared_witness :
  (∀ b, ClassDef.base class_B = Some b →
     ∀ f, f ∈ ClassDef.fields class_B → f ∉ ClassDef.all_fields b)
  ∧ ((∀ k, k ∈ chain class_B → NoDup (ClassDef.fields k)) →
     NoDup (ClassDef.all_fields class_B)).
Proof.
  exact (loaded_fields_not_redeclared scenario_source scenario_loaded
           load_scenario_source "B" class_B eq_refl).
Defined.

(** X20. The statements [parse] returns are lines of the text with the
    white space around them removed, none empty and none starting with
    [//] or [;]; the interpreter skips none of them as blank: what it
    keeps of such a statement, before the first [;], is not empty. *)
Theorem parsed_statements_are_not_skipped src cl sts :
  parse src = Some (inr (cl, sts)) →
  ∀ s, s ∈ sts →
    strip s = s
    ∧ is_empty s = false
    ∧ startswith "//" s = false
    ∧ startswith ";" s = false
    ∧ is_empty (strip (match split1 ";" s with
                       | Some (a, _) => a
                       | None => s
                       end)) = false.
Proof.
  intros Hparse s Hs.
  destruct (parse_spec src) as (r & Hr & Hok).
  rewrite Hparse in Hr. injection Hr as <-.
  destruct (Hok _ _ eq_refl) as (table & rest & _ & _ & ->).
  destruct (parse_statements_elem _ _ Hs) as (l & _ & -> & Hne & Hc & Hd).
  split; [apply strip_idemp|]. do 3 (split; [done|]).
  destruct (strip l) as [|c r] eqn:Hl; [done|].
  pose proof (strip_head _ _ _ Hl) as Hsp.
  assert (Hstrip : ∀ t, is_empty (strip (String c t)) = false).
  { intros t. unfold strip. simpl. rewrite Hsp. simpl. by rewrite Hsp. }
  simpl in Hd. rewrite split1_eq, Hd.
  destruct (split1 ";" r) as [[a b]|]; apply Hstrip.
Qed.

Lemma parsed_statements_are_not_skipped_witness :
  strip "let x = new B(1, 2)" = "let x = new B(1, 2)"
  ∧ is_empty "let x = new B(1, 2)" = false
  ∧ startswith "//" "let x = new B(1, 2)" = false
  ∧ startswith ";" "let x = new B(1, 2)" = false
  ∧ is_empty (strip (match split1 ";" "let x = new B(1, 2)" with
                     | Some (a, _) => a
                     | None => "let x = new B(1, 2)"
                     end)) = false.
Proof.
  refine (parsed_statements_are_not_skipped scenario_source
            [("A", class_A); ("B", class_B)]
            ["let x = new B(1, 2)"; "let y = cast<A> x"] _
            "let x = new B(1, 2)" _).
  - vm_compute. reflexivity.
  - apply list_elem_of_here.
Defined.

End Loader.
